(** * depend: a shallow embedding of the dependency-injection container

    The development follows the JavaScript sources module by module:
    [proto.js] (the constructor chain), [module.js] (the metadata store),
    [container.js] (bindings, [resolve], the [Stack] of the validator and
    [validate]) and [builder.js] (the code builder and the procedures it
    compiles).  Loops and recursions that the source does not bound are
    given a fuel argument; running out of fuel for every fuel is
    non-termination of the source. *)

From stdpp Require Import gmap strings list.

Set Warnings "-register-all".

(** ** Constructors, keys and definitions *)

(** A constructor function together with the chain of constructors reachable
    through [Object.getPrototypeOf(constructor.prototype).constructor].  The
    chain of a JavaScript class is fixed and finite, and it ends in [Object]. *)
Inductive ctor : Type :=
  | Object
  | Class (id : nat) (super : ctor).

#[global] Instance ctor_eq_dec : EqDecision ctor.
Proof. solve_decision. Defined.

Fixpoint ctor_path (c : ctor) : list nat :=
  match c with
  | Object => []
  | Class i s => i :: ctor_path s
  end.

Fixpoint path_ctor (l : list nat) : ctor :=
  match l with
  | [] => Object
  | i :: l' => Class i (path_ctor l')
  end.

#[global] Instance ctor_countable : Countable ctor.
Proof.
  refine (inj_countable' ctor_path path_ctor _).
  intros c; induction c as [|i s IH]; simpl; [done | by rewrite IH].
Defined.

(** Property keys: strings and symbols. *)
Inductive key : Type :=
  | KString (s : string)
  | KSymbol (n : nat).

#[global] Instance key_eq_dec : EqDecision key.
Proof. solve_decision. Defined.

(** [!key] of the source, for a key that may be [null] or [undefined]. *)
Definition key_truthy (k : option key) : bool :=
  match k with
  | None => false
  | Some (KString s) => negb (String.eqb s "")
  | Some (KSymbol _) => true
  end.

(** What has to be supplied at an injection point: a constructor, an array
    of definitions, or an object of definitions (its entries in the order of
    [Object.getOwnPropertyNames(o).concat(Object.getOwnPropertySymbols(o))]).
    [Undefined] is the value [injects[0]] of an empty array, which
    [declareInject] stores for a property injection declared without any
    definition. *)
Inductive definition : Type :=
  | TypeRef (t : ctor)
  | OrderedList (l : list definition)
  | KeyedMap (l : list (key * definition))
  | Undefined.

(** ** Errors and outcomes *)

Inductive origin : Type :=
  | OConstructor (t : ctor)
  | OInject (t : ctor) (k : key) (method : bool).

#[global] Instance origin_eq_dec : EqDecision origin.
Proof. solve_decision. Defined.

Inductive error : Type :=
  | DuplicateConstructorInjection
  | MultiParameterPropertyInjection
  | InvalidAbstractTarget
  | InvalidInitTarget
  | DuplicateInit
  | AbstractInstantiation (t : ctor)
  | AbstractInvocation (t : ctor) (k : key)
  | CircularDependency (origins : list origin) (t resolved : ctor)
  | TypeError
  | UserError (n : nat).

(** The result of running a piece of the source: it returns, it throws, or
    the fuel ran out. *)
Inductive outcome (A : Type) : Type :=
  | Return (a : A)
  | Throw (e : error)
  | Diverge.
Arguments Return {A} a.
Arguments Throw {A} e.
Arguments Diverge {A}.

(** Sequencing for code that mutates a state [S] and may throw; a throw keeps
    the mutations made so far, as in the source. *)
Definition andThen {S A B : Type} (m : S -> outcome A * S)
    (f : A -> S -> outcome B * S) (s : S) : outcome B * S :=
  match m s with
  | (Return a, s') => f a s'
  | (Throw e, s') => (Throw e, s')
  | (Diverge, s') => (Diverge, s')
  end.

Notation "x <- m ;; f" := (andThen m (fun x => f))
  (at level 100, m at next level, right associativity).
Notation "m ;;; f" := (andThen m (fun _ => f))
  (at level 100, right associativity).

Definition ret {S A : Type} (a : A) (s : S) : outcome A * S := (Return a, s).
Definition throw {S A : Type} (e : error) (s : S) : outcome A * S := (Throw e, s).

(** ** proto.js *)

(** [constructorChain]: the constructor, then its ancestors, ending with
    [Object]. *)
Fixpoint constructorChain (constructor : ctor) : list ctor :=
  match constructor with
  | Object => [Object]
  | Class _ super => constructor :: constructorChain super
  end.

(** ** module.js: the metadata store *)

Record inject : Type := Inject {
  inj_key : key;
  inj_definition : definition;
  inj_method : bool
}.

Record DependencyData : Type := Data {
  injects : list inject;
  construct : option (list definition);
  init : option key;
  abstract : bool;
  singleton : bool
}.

(** [new DependencyData()] *)
Definition newData : DependencyData :=
  Data [] None None false false.

(** [Module.data] is a [Map]: insertion ordered, one entry per constructor. *)
Definition store : Type := list (ctor * DependencyData).

Fixpoint getData (m : store) (type : ctor) : option DependencyData :=
  match m with
  | [] => None
  | (t, d) :: m' => if decide (t = type) then Some d else getData m' type
  end.

(** [Map.set] on an insertion-ordered map. *)
Fixpoint setData (m : store) (type : ctor) (d : DependencyData) : store :=
  match m with
  | [] => [(type, d)]
  | (t, d') :: m' =>
      if decide (t = type) then (t, d) :: m' else (t, d') :: setData m' type d
  end.

(** [createData(type, properties)]: the record of [type], created when
    absent, with [properties] assigned onto it. *)
Definition createData (m : store) (type : ctor)
    (properties : DependencyData -> DependencyData) : DependencyData * store :=
  let d := properties (default newData (getData m type)) in
  (d, setData m type d).

(** The types known to the store, [Module[Symbol.iterator]]. *)
Definition known (m : store) : list ctor := m.*1.

(** ** container.js: bindings and [resolve] *)

(** [this[ BINDING ].get(type)], a read of the binding table. *)
Definition mapGet (type : ctor) (BINDING : gmap ctor ctor)
    : outcome (option ctor) * gmap ctor ctor :=
  (Return (BINDING !! type), BINDING).

(** [resolve]: [let last = type; while(type = BINDING.get(last)) last = type;
    return last;] with the number of iterations bounded by [fuel]. *)
Fixpoint resolve (fuel : nat) (last : ctor)
    : gmap ctor ctor -> outcome ctor * gmap ctor ctor :=
  type <- mapGet last ;;
  match type with
  | None => ret last
  | Some type =>
      match fuel with
      | 0 => fun BINDING => (Diverge, BINDING)
      | S fuel' => resolve fuel' type
      end
  end.

(** ** container.js: the [Stack] of the validator *)

(** What the [Set] of a [Stack] can be asked about: [push] adds the
    constructor it is given, [pop] deletes the value popped from the array of
    origins, which is an origin label. *)
Inductive member : Type :=
  | MType (t : ctor)
  | MOrigin (o : origin).

#[global] Instance member_eq_dec : EqDecision member.
Proof. solve_decision. Defined.

Record Stack : Type := MkStack {
  set : list member;
  stack : list origin
}.

Definition newStack : Stack := MkStack [] [].

Definition set_add (x : member) (s : list member) : list member :=
  if decide (x ∈ s) then s else s ++ [x].

Definition set_delete (x : member) (s : list member) : list member :=
  filter (fun y => y ≠ x) s.

(** [push(type, origin) { this.set.add(type); this.stack.push(origin); }] *)
Definition push (type : ctor) (o : origin) (s : Stack) : Stack :=
  MkStack (set_add (MType type) (set s)) (stack s ++ [o]).

(** [pop() { this.set.delete(this.stack.pop()); }] *)
Definition pop (s : Stack) : Stack :=
  match last (stack s) with
  | None => s
  | Some o => MkStack (set_delete (MOrigin o) (set s)) (removelast (stack s))
  end.

(** [has(type) { return this.set.has(type); }] *)
Definition has (type : ctor) (s : Stack) : bool :=
  bool_decide (MType type ∈ set s).

Definition origins (s : Stack) : list origin := stack s.

(** ** container.js: [validate] *)

Section Validate.
Variable MODULE : store.
Variable BINDING : gmap ctor ctor.

(** [validateDefinition], [walkArray] and [walkObject], over the validator
    of a constructor. *)
Fixpoint validateDefinition (validateType : ctor -> Stack -> outcome unit * Stack)
    (d : definition) (s : Stack) {struct d} : outcome unit * Stack :=
  match d with
  | OrderedList array =>
      (fix walkArray (array : list definition) (s : Stack) :=
         match array with
         | [] => ret tt s
         | d' :: rest =>
             (validateDefinition validateType d' ;;; walkArray rest) s
         end) array s
  | KeyedMap object =>
      (fix walkObject (object : list (key * definition)) (s : Stack) :=
         match object with
         | [] => ret tt s
         | (_, d') :: rest =>
             (validateDefinition validateType d' ;;; walkObject rest) s
         end) object s
  | TypeRef t => validateType t s
  | Undefined => throw TypeError s
  end.

(** The inner loop of [validateInjects], over the injections of one
    constructor of the chain; [properties] are the keys already seen. *)
Fixpoint validateInjectsOf (validateType : ctor -> Stack -> outcome unit * Stack)
    (type : ctor) (l : list inject) (properties : list key) (s : Stack)
    : outcome (list key) * Stack :=
  match l with
  | [] => ret properties s
  | Inject k d method :: rest =>
      if decide (k ∈ properties)
      then validateInjectsOf validateType type rest properties s
      else
        ((fun s => ret tt (push type (OInject type k method) s)) ;;;
         validateDefinition validateType d ;;;
         (fun s => ret tt (pop s)) ;;;
         validateInjectsOf validateType type rest (k :: properties)) s
  end.

(** The outer loop of [validateInjects], over the constructor chain. *)
Fixpoint validateInjectsIn (validateType : ctor -> Stack -> outcome unit * Stack)
    (type : ctor) (chain : list ctor) (properties : list key) (s : Stack)
    : outcome unit * Stack :=
  match chain with
  | [] => ret tt s
  | constructor :: rest =>
      match getData MODULE constructor with
      | None => validateInjectsIn validateType type rest properties s
      | Some data =>
          (properties' <- validateInjectsOf validateType type (injects data) properties ;;
           validateInjectsIn validateType type rest properties') s
      end
  end.

Definition validateInjects (validateType : ctor -> Stack -> outcome unit * Stack)
    (type : ctor) : Stack -> outcome unit * Stack :=
  validateInjectsIn validateType type (constructorChain type) [].

Fixpoint validateType (fuel : nat) (type : ctor) (s : Stack)
    : outcome unit * Stack :=
  match fuel with
  | 0 => (Diverge, s)
  | S fuel' =>
      match (resolve fuel' type BINDING).1 with
      | Diverge => (Diverge, s)
      | Throw e => (Throw e, s)
      | Return resolved =>
          if has resolved s
          then (Throw (CircularDependency (origins s) type resolved), s)
          else
            let data := default newData (getData MODULE type) in
            ((match construct data with
              | Some array =>
                  (fun s => ret tt (push type (OConstructor type) s)) ;;;
                  validateDefinition (validateType fuel') (OrderedList array) ;;;
                  (fun s => ret tt (pop s))
              | None => ret tt
              end) ;;;
             validateInjects (validateType fuel') type) s
      end
  end.

Definition validate (fuel : nat) (type : ctor) : outcome unit :=
  fst (validateType fuel type newStack).
End Validate.

(** ** builder.js: what the code builder generates *)

(** The expressions of the generated source: an array literal, an object
    literal, and the call [p[ BUILD ]()] on the closure parameter bound to a
    constructor. *)
Inductive expr : Type :=
  | EArray (l : list expr)
  | EObject (l : list (key * expr))
  | EBuild (t : ctor).

(** The statements [injectBuilder] generates: the block calling a setter
    method with its arguments, and the assignment to a property. *)
Inductive statement : Type :=
  | SCall (k : key) (args : list expr)
  | SAssign (k : key) (e : expr).

(** The holes of the template of [typeBuilder], with the constructor the
    procedure is compiled for. *)
Record procedure : Type := Procedure {
  p_type : ctor;
  p_construct : list expr;
  p_injections : list statement;
  p_init : option key;
  p_singleton : bool
}.

(** Values at run time.  A thenable is a value [x] with [x && x.then]; the
    deferred it stands for is either one handed out by the host program, or
    one the compiled procedure derives with [then] and [Promise.all]. *)
Inductive value : Type :=
  | VInstance (id : nat) (t : ctor)
  | VArray (l : list value)
  | VRecord (l : list (key * value))
  | VThenable (p : promise)
  | VOther (n : nat)
with promise : Type :=
  | PUser (d : nat)
  | PThen (p : promise) (k : continuation)
  | PAll (ps : list promise)
with continuation : Type :=
  | KInject (body : procedure)
  | KInit (body : procedure) (instance : value)
  | KDeliver (instance : value).

(** The functions stored under the [BUILD] symbol of a constructor, and the
    fallback [get] answers with. *)
Inductive builder : Type :=
  | BAbstract (t : ctor)
  | BRedirect (resolved : ctor)
  | BInstance (instance : value)
  | BProcedure (body : procedure)
  | BNew (t : ctor).

Section CodeBuilder.
Variable MODULE : store.
Variable BINDING : gmap ctor ctor.

Abbreviation compiling A := (gmap ctor builder -> outcome A * gmap ctor builder).

(** [anyBuilder], with [arrayBuilder] and [objectBuilder] for the elements
    of literals; [rebuild] reaches [typeBuilder] only for a direct
    constructor. *)
Fixpoint anyBuilder (typeBuilder : ctor -> bool -> compiling expr)
    (fuel : nat) (any : definition) (rebuild : bool) {struct any}
    : compiling expr :=
  match any with
  | OrderedList array =>
      elements <-
        (fix arrayBuilder (array : list definition) : compiling (list expr) :=
           match array with
           | [] => ret []
           | element :: rest =>
               e <- anyBuilder typeBuilder fuel element false ;;
               es <- arrayBuilder rest ;;
               ret (e :: es)
           end) array ;;
      ret (EArray elements)
  | KeyedMap object =>
      properties <-
        (fix objectBuilder (object : list (key * definition))
             : compiling (list (key * expr)) :=
           match object with
           | [] => ret []
           | (k, element) :: rest =>
               e <- anyBuilder typeBuilder fuel element false ;;
               es <- objectBuilder rest ;;
               ret ((k, e) :: es)
           end) object ;;
      ret (EObject properties)
  | TypeRef any =>
      fun b =>
        match (resolve fuel any BINDING).1 with
        | Diverge => (Diverge, b)
        | Throw e => (Throw e, b)
        | Return resolved =>
            typeBuilder resolved rebuild
              (if decide (resolved = any) then b
               else <[any := BRedirect resolved]> b)
        end
  | Undefined => throw TypeError
  end.

(** [arrayBuilder(array, params)]: [for(let element of array)] needs an
    array. *)
Fixpoint arrayBuilderOf (typeBuilder : ctor -> bool -> compiling expr)
    (fuel : nat) (array : list definition) : compiling (list expr) :=
  match array with
  | [] => ret []
  | element :: rest =>
      e <- anyBuilder typeBuilder fuel element false ;;
      es <- arrayBuilderOf typeBuilder fuel rest ;;
      ret (e :: es)
  end.

Definition arrayBuilder (typeBuilder : ctor -> bool -> compiling expr)
    (fuel : nat) (array : definition) : compiling (list expr) :=
  match array with
  | OrderedList l => arrayBuilderOf typeBuilder fuel l
  | _ => throw TypeError
  end.

(** The inner loop of [injectBuilder]. *)
Fixpoint injectBuilderOf (typeBuilder : ctor -> bool -> compiling expr)
    (fuel : nat) (l : list inject) (properties : list key)
    : compiling (list key * list statement) :=
  match l with
  | [] => ret (properties, [])
  | Inject k d method :: rest =>
      if decide (k ∈ properties)
      then injectBuilderOf typeBuilder fuel rest properties
      else
        st <- (if method
               then args <- arrayBuilder typeBuilder fuel d ;; ret (SCall k args)
               else e <- anyBuilder typeBuilder fuel d false ;; ret (SAssign k e)) ;;
        r <- injectBuilderOf typeBuilder fuel rest (k :: properties) ;;
        ret (r.1, st :: r.2)
  end.

(** The outer loop of [injectBuilder], over the constructor chain. *)
Fixpoint injectBuilderIn (typeBuilder : ctor -> bool -> compiling expr)
    (fuel : nat) (chain : list ctor) (properties : list key)
    : compiling (list statement) :=
  match chain with
  | [] => ret []
  | constructor :: rest =>
      match getData MODULE constructor with
      | None => injectBuilderIn typeBuilder fuel rest properties
      | Some data =>
          r <- injectBuilderOf typeBuilder fuel (injects data) properties ;;
          body <- injectBuilderIn typeBuilder fuel rest r.1 ;;
          ret (r.2 ++ body)
      end
  end.

Definition injectBuilder (typeBuilder : ctor -> bool -> compiling expr)
    (fuel : nat) (type : ctor) : compiling (list statement) :=
  injectBuilderIn typeBuilder fuel (constructorChain type) [].

(** [typeBuilder(type, params, rebuild)]: compiles and stores the builder
    of [type] when asked to rebuild or when [type] has none of its own, and
    returns the call of it. *)
Fixpoint typeBuilder (fuel : nat) (type : ctor) (rebuild : bool)
    : compiling expr :=
  match fuel with
  | 0 => fun b => (Diverge, b)
  | S fuel' =>
      fun b =>
        if rebuild || negb (bool_decide (is_Some (b !! type)))
        then
          let data := default newData (getData MODULE type) in
          if abstract data
          then ret (EBuild type) (<[type := BAbstract type]> b)
          else
            (constructParams <-
               match construct data with
               | Some array =>
                   arrayBuilder (typeBuilder fuel') fuel' (OrderedList array)
               | None => ret []
               end ;;
             injections <- injectBuilder (typeBuilder fuel') fuel' type ;;
             fun b =>
               ret (EBuild type)
                 (<[type := BProcedure
                      (Procedure type constructParams injections
                         (if key_truthy (init data) then init data else None)
                         (singleton data))]> b)) b
        else ret (EBuild type) b
  end.

(** [build(definition)]: the source is generated for its effect on the
    stored builders; the function compiled from it is dropped by every
    caller. *)
Definition build (fuel : nat) (d : definition) : compiling unit :=
  anyBuilder (typeBuilder fuel) fuel d true ;;; ret tt.
End CodeBuilder.

(** [get(type)]: the builder [type] owns, else [function() { return new type(); }]. *)
Definition get (b : gmap ctor builder) (type : ctor) : builder :=
  default (BNew type) (b !! type).

(** ** The host program and the procedures at run time *)

(** What calling into the host program gives back. *)
Inductive reply : Type :=
  | Replies (v : value)
  | Raises (e : error).

(** The eventual state of a deferred handed out by the host program, with
    the logical time at which it is reached. *)
Inductive settlement : Type :=
  | Fulfils (at_time : nat) (v : value)
  | Rejects (at_time : nat) (e : error)
  | Never.

(** The classes of the host program, as far as the container observes them:
    which methods a class body defines, what [new t(args)] evaluates to for
    the fresh object [this], what a method call returns, and how the
    deferreds it hands out settle. *)
Record program : Type := Program {
  own_method : ctor -> key -> bool;
  constructing : ctor -> value -> list value -> reply;
  calling : value -> key -> list value -> reply;
  settles : nat -> settlement
}.

Inductive event : Type :=
  | EvNew (t : ctor) (args : list value)
  | EvCall (receiver : value) (k : key) (args : list value)
  | EvAssign (receiver : value) (k : key) (v : value).

(** The state a procedure runs in: the [BUILD] slots of the constructors
    (for the [BUILD] symbol of one container), the next object identity, and
    the calls into the host program made so far. *)
Record runtime : Type := Runtime {
  r_build : gmap ctor builder;
  r_next : nat;
  r_log : list event
}.

(** [p[ BUILD ]]: the builder [p] owns, else the one it inherits; a class
    inherits from the class it extends, a base class from nothing that
    carries a builder. *)
Fixpoint lookupBUILD (b : gmap ctor builder) (p : ctor) : option builder :=
  match b !! p with
  | Some f => Some f
  | None =>
      match p with
      | Class _ super =>
          match super with
          | Class _ _ => lookupBUILD b super
          | Object => None
          end
      | Object => None
      end
  end.

Section Run.
Variable P : program.
(** The prototype slots [declareAbstract] has overwritten with
    [throwAbstract]. *)
Variable ABSTRACTED : list (ctor * key).

Abbreviation running A := (runtime -> outcome A * runtime).

Definition record (e : event) : running unit :=
  fun rt => ret tt (Runtime (r_build rt) (r_next rt) (r_log rt ++ [e])).

Definition answer (r : reply) : running value :=
  match r with
  | Replies v => ret v
  | Raises e => throw e
  end.

(** The class whose prototype supplies [key] to instances of [t]. *)
Definition supplier (t : ctor) (k : key) : option ctor :=
  find (fun c => own_method P c k || bool_decide ((c, k) ∈ ABSTRACTED))
       (constructorChain t).

(** [type.prototype[ key ] instanceof Function] *)
Definition isMethod (t : ctor) (k : key) : bool :=
  bool_decide (is_Some (supplier t k)).

(** [new t(args)] *)
Definition new (t : ctor) (args : list value) : running value :=
  fun rt =>
    (record (EvNew t args) ;;;
     answer (constructing P t (VInstance (r_next rt) t) args))
      (Runtime (r_build rt) (S (r_next rt)) (r_log rt)).

(** [instance[ key ](args)] *)
Definition call (instance : value) (k : key) (args : list value)
    : running value :=
  match instance with
  | VInstance _ t =>
      match supplier t k with
      | None => throw TypeError
      | Some c =>
          if bool_decide ((c, k) ∈ ABSTRACTED)
          then throw (AbstractInvocation c k)
          else record (EvCall instance k args) ;;; answer (calling P instance k args)
      end
  | _ => record (EvCall instance k args) ;;; answer (calling P instance k args)
  end.

(** [instance[ key ] = v] *)
Definition assign (instance : value) (k : key) (v : value) : running unit :=
  record (EvAssign instance k v).

(** [x && x.then] *)
Definition thenable (x : value) : option promise :=
  match x with
  | VThenable p => Some p
  | _ => None
  end.

(** Evaluation of a generated expression, over what [p[ BUILD ]()] does. *)
Fixpoint evaluate (invoke : ctor -> running value) (e : expr) {struct e}
    : running value :=
  match e with
  | EArray l =>
      vs <- (fix elements (l : list expr) : running (list value) :=
               match l with
               | [] => ret []
               | e' :: rest =>
                   v <- evaluate invoke e' ;;
                   vs <- elements rest ;;
                   ret (v :: vs)
               end) l ;;
      ret (VArray vs)
  | EObject l =>
      vs <- (fix entries (l : list (key * expr)) : running (list (key * value)) :=
               match l with
               | [] => ret []
               | (k, e') :: rest =>
                   v <- evaluate invoke e' ;;
                   vs <- entries rest ;;
                   ret ((k, v) :: vs)
               end) l ;;
      ret (VRecord vs)
  | EBuild t => invoke t
  end.

Fixpoint evaluateAll (invoke : ctor -> running value) (l : list expr)
    : running (list value) :=
  match l with
  | [] => ret []
  | e :: rest =>
      v <- evaluate invoke e ;;
      vs <- evaluateAll invoke rest ;;
      ret (v :: vs)
  end.

(** [T[ BUILD ] = function() { return instance; };] *)
Definition pin (t : ctor) (instance : value) : running unit :=
  fun rt =>
    ret tt (Runtime (<[t := BInstance instance]> (r_build rt)) (r_next rt) (r_log rt)).

(** The last stage of the template: [let result = init; singleton; return
    (result && result.then) ? result.then(function() { return instance; })
    : instance;] *)
Definition initStage (body : procedure) (instance : value) : running value :=
  result <- match p_init body with
            | Some k => call instance k []
            | None => ret (VOther 0)
            end ;;
  (if p_singleton body then pin (p_type body) instance else ret tt) ;;;
  ret (match thenable result with
       | Some p => VThenable (PThen p (KDeliver instance))
       | None => instance
       end).

(** The injection statements, in the order of the generated source;
    [promises] collects the thenables the setter methods return. *)
Fixpoint perform (invoke : ctor -> running value) (instance : value)
    (l : list statement) (promises : list promise) : running (list promise) :=
  match l with
  | [] => ret promises
  | SCall k args :: rest =>
      vs <- evaluateAll invoke args ;;
      result <- call instance k vs ;;
      perform invoke instance rest
        (match thenable result with
         | Some p => promises ++ [p]
         | None => promises
         end)
  | SAssign k e :: rest =>
      v <- evaluate invoke e ;;
      assign instance k v ;;;
      perform invoke instance rest promises
  end.

(** The middle stage: [let promises = []; injections; if (promises.length)
    return Promise.all(promises).then(function() { ... }); else ...] *)
Definition injectStage (invoke : ctor -> running value) (body : procedure)
    (instance : value) : running value :=
  promises <- perform invoke instance (p_injections body) [] ;;
  match promises with
  | [] => initStage body instance
  | _ => ret (VThenable (PThen (PAll promises) (KInit body instance)))
  end.

(** The compiled function: [let instance = new T(constructParams); if
    (instance && instance.then) return instance.then(function(instance) {
    ... }); else ...] *)
Definition runProcedure (invoke : ctor -> running value) (body : procedure)
    : running value :=
  args <- evaluateAll invoke (p_construct body) ;;
  instance <- new (p_type body) args ;;
  match thenable instance with
  | Some p => ret (VThenable (PThen p (KInject body)))
  | None => injectStage invoke body instance
  end.

Definition runBuilder (invoke : ctor -> running value) (b : builder)
    : running value :=
  match b with
  | BAbstract t => throw (AbstractInstantiation t)
  | BRedirect resolved => invoke resolved
  | BInstance instance => ret instance
  | BProcedure body => runProcedure invoke body
  | BNew t => new t []
  end.

(** [p[ BUILD ]()] *)
Fixpoint invoke (fuel : nat) (p : ctor) : running value :=
  match fuel with
  | 0 => fun rt => (Diverge, rt)
  | S fuel' =>
      fun rt =>
        match lookupBUILD (r_build rt) p with
        | None => (Throw TypeError, rt)
        | Some b => runBuilder (invoke fuel') b rt
        end
  end.

(** [create(type) { return this[ BUILDER ].get(type)(); }] *)
Definition create (fuel : nat) (type : ctor) : running value :=
  fun rt => runBuilder (invoke fuel) (get (r_build rt) type) rt.

(** The callbacks the compiled function passes to [then]. *)
Definition resume (invoke : ctor -> running value) (k : continuation)
    (v : value) : running value :=
  match k with
  | KInject body => injectStage invoke body v
  | KInit body instance => initStage body instance
  | KDeliver instance => ret instance
  end.
End Run.

(** ** Deferred values *)

(** [Promise.all]: rejected as soon as one element is, with the earliest
    rejection; fulfilled once all elements are. *)
Fixpoint firstRejection (l : list settlement) : option (nat * error) :=
  match l with
  | [] => None
  | s :: rest =>
      match s, firstRejection rest with
      | Rejects t e, Some (t', e') =>
          if decide (t ≤ t') then Some (t, e) else Some (t', e')
      | Rejects t e, None => Some (t, e)
      | _, r => r
      end
  end.

Fixpoint allFulfilled (l : list settlement) : option (nat * list value) :=
  match l with
  | [] => Some (0, [])
  | Fulfils t v :: rest =>
      match allFulfilled rest with
      | Some (t', vs) => Some (t `max` t', v :: vs)
      | None => None
      end
  | _ => None
  end.

Definition all (l : list settlement) : settlement :=
  match firstRejection l with
  | Some (t, e) => Rejects t e
  | None =>
      match allFulfilled l with
      | Some (t, vs) => Fulfils t (VArray vs)
      | None => Never
      end
  end.

Definition notBefore (t : nat) (s : settlement) : settlement :=
  match s with
  | Fulfils t' v => Fulfils (t `max` t') v
  | Rejects t' e => Rejects (t `max` t') e
  | Never => Never
  end.

Section Settle.
Variable P : program.
Variable ABSTRACTED : list (ctor * key).

(** The elements of [Promise.all(promises)], in the order of the array. *)
Fixpoint settleEach (settle : promise -> runtime -> outcome settlement * runtime)
    (ps : list promise) : runtime -> outcome (list settlement) * runtime :=
  match ps with
  | [] => ret []
  | q :: rest =>
      s <- settle q ;;
      ss <- settleEach settle rest ;;
      ret (s :: ss)
  end.

(** How a deferred settles: one of the host program as the program says;
    [p.then(k)] by running [k] once [p] is fulfilled, adopting a thenable
    result and turning a throw into a rejection; [Promise.all] by [all]. *)
Fixpoint settle (fuel : nat) (p : promise)
    : runtime -> outcome settlement * runtime :=
  match fuel with
  | 0 => fun rt => (Diverge, rt)
  | S fuel' =>
      match p with
      | PUser d => ret (settles P d)
      | PThen p' k =>
          s <- settle fuel' p' ;;
          match s with
          | Fulfils t v =>
              fun rt =>
                match resume P ABSTRACTED (invoke P ABSTRACTED fuel') k v rt with
                | (Return x, rt') =>
                    match thenable x with
                    | Some q => (s' <- settle fuel' q ;; ret (notBefore t s')) rt'
                    | None => (Return (Fulfils t x), rt')
                    end
                | (Throw e, rt') => (Return (Rejects t e), rt')
                | (Diverge, rt') => (Diverge, rt')
                end
          | _ => ret s
          end
      | PAll ps =>
          ss <- settleEach (settle fuel') ps ;;
          ret (all ss)
      end
  end.
End Settle.

(** ** The store, its listeners and the containers *)

Record container : Type := Container {
  BINDING : gmap ctor ctor;
  BUILD : gmap ctor builder
}.

(** The metadata store with the prototype slots it has overwritten, the
    containers listening on it in the order they were attached, and the
    object identities and host calls of the containers' procedures. *)
Record system : Type := System {
  MODULE : store;
  ABSTRACTED : list (ctor * key);
  LISTENERS : list container;
  NEXT : nat;
  LOG : list event
}.

Definition emptySystem : system := System [] [] [] 0 [].

Definition withModule (m : store) (sys : system) : system :=
  System m (ABSTRACTED sys) (LISTENERS sys) (NEXT sys) (LOG sys).

Definition withListeners (ls : list container) (sys : system) : system :=
  System (MODULE sys) (ABSTRACTED sys) ls (NEXT sys) (LOG sys).

(** The listener a container registers: [(type) => { this.validate(type);
    this[ BUILDER ].build(type); }], also the body of the loop of its
    constructor. *)
Definition update (m : store) (fuel : nat) (type : ctor) (c : container)
    : outcome unit * container :=
  match validate m (BINDING c) fuel type with
  | Return _ =>
      let r := build m (BINDING c) fuel (TypeRef type) (BUILD c) in
      (r.1, Container (BINDING c) r.2)
  | Throw e => (Throw e, c)
  | Diverge => (Diverge, c)
  end.

(** [bind(type, implementation)] *)
Definition bind (m : store) (fuel : nat) (type implementation : ctor)
    (c : container) : outcome unit * container :=
  let c' := Container (<[type := implementation]> (BINDING c)) (BUILD c) in
  match validate m (BINDING c') fuel implementation with
  | Return _ =>
      let r := build m (BINDING c') fuel (TypeRef type) (BUILD c') in
      (r.1, Container (BINDING c') r.2)
  | Throw e => (Throw e, c')
  | Diverge => (Diverge, c')
  end.

(** Modelled from the spec: the event emitter of the package [@6pm/emit],
    which is not part of the sources.  A change event carrying [type] reaches
    the listeners in the order they were attached, and a listener that throws
    ends the emission with its error (this is how a declaration raises
    [CircularDependency]). *)
Fixpoint emitTo (m : store) (fuel : nat) (type : ctor) (ls : list container)
    : outcome unit * list container :=
  match ls with
  | [] => (Return tt, [])
  | c :: rest =>
      match update m fuel type c with
      | (Return _, c') =>
          let r := emitTo m fuel type rest in (r.1, c' :: r.2)
      | (Throw e, c') => (Throw e, c' :: rest)
      | (Diverge, c') => (Diverge, c' :: rest)
      end
  end.

Definition emit (fuel : nat) (type : ctor) (sys : system)
    : outcome unit * system :=
  let r := emitTo (MODULE sys) fuel type (LISTENERS sys) in
  (r.1, withListeners r.2 sys).

Section Declarations.
Variable P : program.

(** The key of a declaration when it is truthy: [if (key)]. *)
Definition given (k : option key) : option key :=
  if key_truthy k then k else None.

Definition addInject (i : inject) (d : DependencyData) : DependencyData :=
  Data (injects d ++ [i]) (construct d) (init d) (abstract d) (singleton d).

(** [declareInject(type, key, injects)] *)
Definition declareInject (fuel : nat) (type : ctor) (k : option key)
    (definitions : list definition) (sys : system) : outcome unit * system :=
  match given k with
  | None =>
      let r := createData (MODULE sys) type id in
      let data := r.1 in
      match construct data with
      | Some _ => (Throw DuplicateConstructorInjection, withModule r.2 sys)
      | None =>
          emit fuel type
            (withModule
               (setData r.2 type
                  (Data (injects data) (Some definitions) (init data)
                     (abstract data) (singleton data)))
               sys)
      end
  | Some k' =>
      if isMethod P (ABSTRACTED sys) type k'
      then
        let r := createData (MODULE sys) type id in
        emit fuel type
          (withModule
             (setData r.2 type
                (addInject (Inject k' (OrderedList definitions) true) r.1))
             sys)
      else
        if decide (1 < length definitions)
        then (Throw MultiParameterPropertyInjection, sys)
        else
          let r := createData (MODULE sys) type id in
          emit fuel type
            (withModule
               (setData r.2 type
                  (addInject
                     (Inject k' (default Undefined (head definitions)) false)
                     r.1))
               sys)
  end.

Definition markAbstract (d : DependencyData) : DependencyData :=
  Data (injects d) (construct d) (init d) true (singleton d).

Definition markSingleton (d : DependencyData) : DependencyData :=
  Data (injects d) (construct d) (init d) (abstract d) true.

(** [declareAbstract(type, key, descriptor)]: with a key it overwrites the
    prototype slot and returns the descriptor. *)
Definition declareAbstract (fuel : nat) (type : ctor) (k : option key)
    (sys : system) : outcome unit * system :=
  let sys' := withModule (createData (MODULE sys) type markAbstract).2 sys in
  match given k with
  | Some k' =>
      if isMethod P (ABSTRACTED sys') type k'
      then
        (Return tt,
         System (MODULE sys') ((type, k') :: ABSTRACTED sys') (LISTENERS sys')
           (NEXT sys') (LOG sys'))
      else (Throw InvalidAbstractTarget, sys')
  | None => emit fuel type sys'
  end.

(** [declareSingleton(type)] *)
Definition declareSingleton (fuel : nat) (type : ctor) (sys : system)
    : outcome unit * system :=
  emit fuel type
    (withModule (createData (MODULE sys) type markSingleton).2 sys).

(** [declareInit(type, key)] *)
Definition declareInit (fuel : nat) (type : ctor) (k : option key)
    (sys : system) : outcome unit * system :=
  let r := createData (MODULE sys) type id in
  let data := r.1 in
  let sys' := withModule r.2 sys in
  if match k with
     | Some k' => isMethod P (ABSTRACTED sys') type k'
     | None => false
     end
  then
    if key_truthy (init data)
    then (Throw DuplicateInit, sys')
    else
      emit fuel type
        (withModule
           (setData r.2 type
              (Data (injects data) (construct data) k (abstract data)
                 (singleton data)))
           sys')
  else (Throw InvalidInitTarget, sys').

(** A step on the container attached at position [i]. *)
Definition onContainer {A : Type} (i : nat)
    (f : container -> outcome A * container) (sys : system)
    : outcome A * system :=
  match LISTENERS sys !! i with
  | None => (Throw TypeError, sys)
  | Some c =>
      let r := f c in (r.1, withListeners (<[i := r.2]> (LISTENERS sys)) sys)
  end.

(** [new BoundContainer(module)]: attaches the listener, then validates and
    builds every known type; answers the position of the container. *)
Fixpoint prebuild (fuel : nat) (i : nat) (types : list ctor) (sys : system)
    : outcome unit * system :=
  match types with
  | [] => (Return tt, sys)
  | type :: rest =>
      (onContainer i (update (MODULE sys) fuel type) ;;;
       prebuild fuel i rest) sys
  end.

Definition newContainer (fuel : nat) (sys : system) : outcome nat * system :=
  let i := length (LISTENERS sys) in
  (prebuild fuel i (known (MODULE sys)) ;;; ret i)
    (withListeners (LISTENERS sys ++ [Container ∅ ∅]) sys).

(** [container.bind(type, implementation)] *)
Definition bindOn (fuel : nat) (i : nat) (type implementation : ctor)
    (sys : system) : outcome unit * system :=
  onContainer i (bind (MODULE sys) fuel type implementation) sys.

(** [container.create(type)] *)
Definition createOn (fuel : nat) (i : nat) (type : ctor) (sys : system)
    : outcome value * system :=
  match LISTENERS sys !! i with
  | None => (Throw TypeError, sys)
  | Some c =>
      let r := create P (ABSTRACTED sys) fuel type
                 (Runtime (BUILD c) (NEXT sys) (LOG sys)) in
      (r.1,
       System (MODULE sys) (ABSTRACTED sys)
         (<[i := Container (BINDING c) (r_build r.2)]> (LISTENERS sys))
         (r_next r.2) (r_log r.2))
  end.
End Declarations.

(** ** Vocabulary of the statements *)

(** [follows b n t v]: [n] redirections of the binding table lead from [t]
    to [v]. *)
Inductive follows (b : gmap ctor ctor) : nat -> ctor -> ctor -> Prop :=
  | follows_here t : follows b 0 t t
  | follows_step n t u v :
      b !! t = Some u -> follows b n u v -> follows b (S n) t v.

(** The redirections from [t] reach the fixed point [v], a type without an
    outgoing binding. *)
Definition fixedPoint (b : gmap ctor ctor) (t v : ctor) : Prop :=
  ∃ n, follows b n t v ∧ b !! v = None.

(** A redirection cycle is reachable from [t]. *)
Definition cycleReachable (b : gmap ctor ctor) (t : ctor) : Prop :=
  ∃ n u m, follows b n t u ∧ follows b (S m) u u.

(** [g] does what [f] does whenever [f] comes to an end. *)
Definition refines {S A : Type} (f g : S -> outcome A * S) : Prop :=
  ∀ s r s', f s = (r, s') -> r ≠ Diverge -> g s = (r, s').

(** [f] keeps [Q], also when it throws or runs out of fuel. *)
Definition preserves {S A : Type} (Q : S -> Prop) (f : S -> outcome A * S)
    : Prop :=
  ∀ s r s', Q s -> f s = (r, s') -> Q s'.

(** The injections declared on one constructor. *)
Definition declared (m : store) (c : ctor) : list inject :=
  injects (default newData (getData m c)).

(** The injections of [l] whose key is met for the first time, [properties]
    being the keys met before. *)
Fixpoint firsts (properties : list key) (l : list inject) : list inject :=
  match l with
  | [] => []
  | i :: rest =>
      if decide (inj_key i ∈ properties) then firsts properties rest
      else i :: firsts (inj_key i :: properties) rest
  end.

(** The injection points in force for [type]: those declared along its
    constructor chain, [type] itself first and [Object] last, a key counting
    where it is met first. *)
Definition injectionPoints (m : store) (type : ctor) : list inject :=
  firsts [] (flat_map (declared m) (constructorChain type)).

(** The first injection declared for [k] in [l]. *)
Definition firstFor (k : key) (l : list inject) : option inject :=
  head (filter (fun i => inj_key i = k) l).

Definition statementKey (st : statement) : key :=
  match st with
  | SCall k _ => k
  | SAssign k _ => k
  end.

(** [st] is the statement [injectBuilder] generates for the injection [i]:
    the call of the setter with the definitions compiled as arguments, or the
    assignment of the compiled definition. *)
Definition compiledFrom (bnd : gmap ctor ctor)
    (tb : ctor -> bool -> gmap ctor builder -> outcome expr * gmap ctor builder)
    (fuel : nat) (i : inject) (st : statement) : Prop :=
  ∃ b1 b2,
    if inj_method i
    then ∃ args, arrayBuilder bnd tb fuel (inj_definition i) b1 = (Return args, b2)
                 ∧ st = SCall (inj_key i) args
    else ∃ e, anyBuilder bnd tb fuel (inj_definition i) false b1 = (Return e, b2)
              ∧ st = SAssign (inj_key i) e.


(** An abstract type without a binding has no builder yet, or the one that
    throws. *)
Definition abstractKept (m : store) (bnd : gmap ctor ctor)
    (b : gmap ctor builder) : Prop :=
  ∀ t, abstract (default newData (getData m t)) = true -> bnd !! t = None ->
       b !! t = None ∨ b !! t = Some (BAbstract t).

(** The type [D] owns the builder [bD]. *)
Definition keeps (D : ctor) (bD : builder) (b : gmap ctor builder) : Prop :=
  b !! D = Some bD.

(** The state after [T[ BUILD ] = function() { return instance; }]. *)
Definition pinned (t : ctor) (instance : value) (rt : runtime) : runtime :=
  Runtime (<[t := BInstance instance]> (r_build rt)) (r_next rt) (r_log rt).

(** What the last stage of the procedure of a singleton [t] comes to, run
    on [instance] from the state [rt].  Without an init method the builder
    returning the instance is stored at once.  With the init method [k] the
    call of [k] comes first: once it has returned, the builder is stored on
    the state the call left, and the outcome is the instance, or the deferred
    derived from the one init returned; when the call throws, the throw is the
    outcome and the builders are still those of [rt]. *)
Definition pinsAfterInit (P : program) (A : list (ctor * key)) (t : ctor)
    (init : option key) (instance : value) (rt : runtime)
    (out : outcome value * runtime) : Prop :=
  match init with
  | None => out = (Return instance, pinned t instance rt)
  | Some k =>
      match call P A instance k [] rt with
      | (Return result, rt') =>
          out = (Return match thenable result with
                        | Some p => VThenable (PThen p (KDeliver instance))
                        | None => instance
                        end,
                 pinned t instance rt')
      | (Throw err, rt') => out = (Throw err, rt') ∧ r_build rt' = r_build rt
      | (Diverge, rt') => out = (Diverge, rt')
      end
  end.

(** ** Example programs *)

Module Examples.
Definition A : ctor := Class 1 Object.
Definition B : ctor := Class 2 Object.
Definition C : ctor := Class 3 Object.
Definition D : ctor := Class 4 Object.
Definition E : ctor := Class 5 Object.

Definition requires (l : list ctor) : DependencyData :=
  Data [] (Some (TypeRef <$> l)) None false false.

(** [A] requires [B] and [C], both require [D], [D] requires [E]: no type
    requires itself, directly or through others. *)
Definition diamond : store :=
  [(A, requires [B; C]); (B, requires [D]); (C, requires [D]);
   (D, requires [E])].

(** A base class and a class extending it. *)
Definition Base : ctor := Class 10 Object.
Definition Derived : ctor := Class 11 Base.

Definition property (k : string) (t : ctor) : inject :=
  Inject (KString k) (TypeRef t) false.

(** [Base] injects [A] into [a], [Derived] injects [B] into [b]. *)
Definition family : store :=
  [(Base, Data [property "a" A] None None false false);
   (Derived, Data [property "b" B] None None false false)].

(** [Base] injects [A] into [a], [Derived] injects [B] into [a]. *)
Definition overriding : store :=
  [(Base, Data [property "a" A] None None false false);
   (Derived, Data [property "a" B] None None false false)].

(** A class with a method [m], in a program whose constructors and
    methods return at once. *)
Definition T : ctor := Class 20 Object.
Definition m : key := KString "m".

Definition plain : program :=
  Program (fun c k => bool_decide (c = T ∧ k = m))
    (fun _ this _ => Replies this)
    (fun _ _ _ => Replies (VOther 0))
    (fun _ => Never).

(** A container created before anything is declared. *)
Definition early : system := (newContainer 5 emptySystem).2.

(** With that container listening, [Derived] declares its injection into
    [b], and only then [Base] declares its injection into [a]. *)
Definition derivedFirst : outcome unit * system :=
  declareInject plain 5 Derived (Some (KString "b")) [TypeRef B] early.

Definition baseLater : outcome unit * system :=
  declareInject plain 5 Base (Some (KString "a")) [TypeRef A] derivedFirst.2.

(** A singleton whose init method returns a deferred that is rejected. *)
Definition Service : ctor := Class 30 Object.
Definition start : key := KString "start".

Definition failingInit : program :=
  Program (fun c k => bool_decide (c = Service ∧ k = start))
    (fun _ this _ => Replies this)
    (fun _ _ _ => Replies (VThenable (PUser 0)))
    (fun _ => Rejects 1 (UserError 0)).

Definition serviceSystem : system :=
  (newContainer 5
     (declareInit failingInit 5 Service (Some start)
        (declareSingleton 5 Service emptySystem).2).2).2.

(** The same class in a program whose init method throws. *)
Definition throwingInit : program :=
  Program (fun c k => bool_decide (c = Service ∧ k = start))
    (fun _ this _ => Replies this)
    (fun _ _ _ => Raises (UserError 0))
    (fun _ => Never).

(** A class whose constructor, setter and init method all return
    deferreds: 0 for the constructor, 1 for the setter, 2 for init. *)
Definition Worker : ctor := Class 40 Object.
Definition setA : key := KString "setA".

Definition workerBody : procedure :=
  Procedure Worker [] [SCall setA [EBuild A]] (Some start) false.

Definition workerBuilders : gmap ctor builder :=
  <[Worker := BProcedure workerBody]>
    (<[A := BProcedure (Procedure A [] [] None false)]> ∅).

Definition deferring (s0 s1 s2 : settlement) : program :=
  Program (fun c k => bool_decide (c = Worker ∧ (k = setA ∨ k = start)))
    (fun t this _ =>
       if decide (t = Worker) then Replies (VThenable (PUser 0)) else Replies this)
    (fun _ k _ =>
       if decide (k = setA) then Replies (VThenable (PUser 1))
       else Replies (VThenable (PUser 2)))
    (fun d => match d with 0 => s0 | 1 => s1 | _ => s2 end).
End Examples.
(** * Properties *)

(** ** Sequencing *)

Lemma andThen_Return {S A B} (m : S -> outcome A * S) (f : A -> S -> outcome B * S)
    s r s' :
  andThen m f s = (Return r, s') ->
  ∃ a s1, m s = (Return a, s1) ∧ f a s1 = (Return r, s').
Proof.
  unfold andThen. destruct (m s) as [[a|e|] s1]; intros H; simplify_eq. eauto.
Qed.

Lemma andThen_assoc {S A B C} (m : S -> outcome A * S) (f : A -> S -> outcome B * S)
    (g : B -> S -> outcome C * S) s :
  andThen (andThen m f) g s = andThen m (fun a => andThen (f a) g) s.
Proof. unfold andThen. by destruct (m s) as [[a|e|] s1]. Qed.

Lemma andThen_ext {S A B} (m : S -> outcome A * S) (f g : A -> S -> outcome B * S) s :
  (∀ a s1, f a s1 = g a s1) -> andThen m f s = andThen m g s.
Proof. intros H. unfold andThen. destruct (m s) as [[a|e|] s1]; auto. Qed.

Lemma refines_refl {S A} (f : S -> outcome A * S) : refines f f.
Proof. by intros s r s' H _. Qed.

Lemma refines_andThen {S A B} (m m' : S -> outcome A * S) (f f' : A -> S -> outcome B * S) :
  refines m m' -> (∀ a, refines (f a) (f' a)) -> refines (andThen m f) (andThen m' f').
Proof.
  intros Hm Hf s r s'. unfold andThen.
  destruct (m s) as [[a|e|] s1] eqn:E; intros H Hr.
  - rewrite (Hm _ _ _ E) by done. by apply Hf.
  - rewrite (Hm _ _ _ E) by done. done.
  - by simplify_eq.
Qed.

Lemma preserves_ret {S A} (Q : S -> Prop) (a : A) : preserves Q (ret a).
Proof. intros s r s' H [= <- <-]. done. Qed.

Lemma preserves_throw {S A} (Q : S -> Prop) e : preserves Q (@throw S A e).
Proof. intros s r s' H [= <- <-]. done. Qed.

Lemma preserves_andThen {S A B} (Q : S -> Prop) (m : S -> outcome A * S) (f : A -> S -> outcome B * S) :
  preserves Q m -> (∀ a, preserves Q (f a)) -> preserves Q (andThen m f).
Proof.
  intros Hm Hf s r s' HQ. unfold andThen.
  destruct (m s) as [[a|e|] s1] eqn:E; intros H.
  - eapply Hf; [|done]. eapply Hm; eauto.
  - simplify_eq. eapply Hm; eauto.
  - simplify_eq. eapply Hm; eauto.
Qed.

Create HintDb depend.
#[global] Hint Resolve refines_refl preserves_ret preserves_throw : depend.

(** Splits a successful sequence into its two steps. *)
Tactic Notation "andThen_inv" hyp(H) "as" ident(a) ident(s) ident(h) :=
  apply andThen_Return in H as (a & s & h & H).

(** Induction over definitions, through the arrays and objects. *)
Lemma definition_induction (Q : definition -> Prop) :
  (∀ t, Q (TypeRef t)) ->
  (∀ l, Forall Q l -> Q (OrderedList l)) ->
  (∀ l, Forall (fun kd => Q kd.2) l -> Q (KeyedMap l)) ->
  Q Undefined ->
  ∀ d, Q d.
Proof.
  intros HT HL HK HU. fix IH 1. intros [t|l|l|].
  - apply HT.
  - apply HL. induction l as [|d l IHl]; constructor; [apply IH | apply IHl].
  - apply HK. induction l as [|[k d] l IHl]; constructor; [apply IH | apply IHl].
  - apply HU.
Qed.

(** ** [resolve] *)

Lemma resolve_pure fuel t b : (resolve fuel t b).2 = b.
Proof.
  revert t; induction fuel as [|fuel IH]; intros t; simpl;
    unfold andThen, mapGet; simpl; destruct (b !! t); simpl; auto.
Qed.

Lemma resolve_unbound fuel t b :
  b !! t = None -> resolve fuel t b = (Return t, b).
Proof.
  intros H. destruct fuel; simpl; unfold andThen, mapGet; simpl; by rewrite H.
Qed.

Lemma resolve_follows b n t v :
  follows b n t v -> b !! v = None ->
  ∀ fuel, n ≤ fuel -> resolve fuel t b = (Return v, b).
Proof.
  induction 1 as [t|n t u v Htu Hf IH]; intros Hv fuel Hle.
  - by apply resolve_unbound.
  - destruct fuel as [|fuel]; [lia|].
    simpl; unfold andThen, mapGet; simpl. rewrite Htu. apply IH; [done | lia].
Qed.

Lemma resolve_starved b fuel :
  ∀ t v, follows b (S fuel) t v -> resolve fuel t b = (Diverge, b).
Proof.
  induction fuel as [|fuel IH]; intros t v Hf; inversion Hf; subst;
    simpl; unfold andThen, mapGet; simpl.
  - by rewrite H0.
  - rewrite H0. eapply IH; eauto.
Qed.

Lemma follows_app b n m t u v :
  follows b n t u -> follows b m u v -> follows b (n + m) t v.
Proof. induction 1; simpl; eauto using follows. Qed.

Lemma follows_snoc b n t v w :
  follows b n t v -> b !! v = Some w -> follows b (S n) t w.
Proof. induction 1; intros Hw; eauto using follows. Qed.

Lemma follows_around b m u :
  follows b (S m) u u -> ∀ k, ∃ v j, follows b k u v ∧ follows b j v u.
Proof.
  intros Hc k. induction k as [|k (v & j & Hk & Hj)].
  - exists u, 0. eauto using follows.
  - destruct j as [|j].
    + inversion Hj; subst. inversion Hc; subst.
      eexists _, _. split; [eapply follows_snoc; eauto | eauto].
    + inversion Hj; subst.
      eexists _, _. split; [eapply follows_snoc; eauto | eauto].
Qed.

Lemma cycle_unbounded b t : cycleReachable b t -> ∀ k, ∃ v, follows b k t v.
Proof.
  intros (n & u & m & Htu & Hc) k.
  destruct (decide (k ≤ n)) as [Hle|Hgt].
  - clear Hc. revert k Hle.
    induction Htu as [t|n t u v Htu Hf IH]; intros k Hle.
    + assert (k = 0) as -> by lia. eauto using follows.
    + destruct k as [|k]; [eauto using follows|].
      destruct (IH k) as [w Hw]; [lia|]. eauto using follows.
  - destruct (follows_around b m u Hc (k - n)) as (v & j & Hk & _).
    exists v. replace k with (n + (k - n)) by lia. eapply follows_app; eauto.
Qed.

Lemma resolve_cycle b t :
  cycleReachable b t -> ∀ fuel, resolve fuel t b = (Diverge, b).
Proof.
  intros Hc fuel. destruct (cycle_unbounded b t Hc (S fuel)) as [v Hv].
  eapply resolve_starved; eauto.
Qed.

Lemma validateType_cycle m b t :
  cycleReachable b t -> ∀ fuel s, validateType m b fuel t s = (Diverge, s).
Proof.
  intros Hc [|fuel] s; simpl; [done|]. by rewrite resolve_cycle.
Qed.

Lemma rebinding_cycle (b : gmap ctor ctor) A B :
  b !! A = Some B -> cycleReachable (<[B := A]> b) A.
Proof.
  intros HA. exists 0, A. destruct (decide (A = B)) as [->|Hne].
  - exists 0. split; [constructor|].
    econstructor; [apply lookup_insert_eq | constructor].
  - exists 1. split; [constructor|].
    econstructor; [by rewrite lookup_insert_ne|].
    econstructor; [apply lookup_insert_eq | constructor].
Qed.

(** C7: when the redirections from [type] reach a fixed point [v], [resolve]
    returns [v] for every sufficient number of iterations; it leaves the
    binding table as it was, and a second call gives the same answer. *)
Theorem resolve_reaches_fixed_point (b : gmap ctor ctor) (type v : ctor) :
  fixedPoint b type v ->
  ∃ n, ∀ fuel, n ≤ fuel ->
    resolve fuel type b = (Return v, b)
    ∧ (first <- resolve fuel type ;;
       second <- resolve fuel type ;;
       ret (first, second)) b = (Return (v, v), b).
Proof.
  intros (n & Hf & Hv). exists n. intros fuel Hle.
  pose proof (resolve_follows b n type v Hf Hv fuel Hle) as Hr.
  split; [done|]. unfold andThen. by rewrite Hr, Hr.
Qed.

Lemma resolve_reaches_fixed_point_witness :
  fixedPoint (<[Examples.A := Examples.B]> (<[Examples.B := Examples.C]> ∅))
    Examples.A Examples.C
  ∧ ∃ n, ∀ fuel, n ≤ fuel ->
      resolve fuel Examples.A
        (<[Examples.A := Examples.B]> (<[Examples.B := Examples.C]> ∅))
      = (Return Examples.C,
         <[Examples.A := Examples.B]> (<[Examples.B := Examples.C]> ∅))
      ∧ (first <- resolve fuel Examples.A ;;
         second <- resolve fuel Examples.A ;;
         ret (first, second))
          (<[Examples.A := Examples.B]> (<[Examples.B := Examples.C]> ∅))
        = (Return (Examples.C, Examples.C),
           <[Examples.A := Examples.B]> (<[Examples.B := Examples.C]> ∅)).
Proof.
  assert (fixedPoint (<[Examples.A := Examples.B]> (<[Examples.B := Examples.C]> ∅))
            Examples.A Examples.C) as H.
  { exists 2. split; [|reflexivity].
    econstructor; [reflexivity|]. econstructor; [reflexivity|]. constructor. }
  split; [exact H|].
  exact (resolve_reaches_fixed_point _ _ _ H).
Defined.

(** C10: when a redirection cycle is reachable from [type] in the binding
    table, [resolve] and [validate] on [type] run out of every fuel; and a
    call of [bind] that leaves such a table, with the implementation it
    validates in reach of the cycle, runs out of every fuel too: it neither
    returns nor throws, so no [CircularDependency] is reported. *)
Theorem binding_cycle_never_returns (m : store) (b : gmap ctor ctor)
    (type : ctor) :
  cycleReachable b type ->
  ∀ fuel,
    (resolve fuel type b).1 = Diverge
    ∧ validate m b fuel type = Diverge
    ∧ ∀ c from,
        <[from := type]> (BINDING c) = b ->
        (bind m fuel from type c).1 = Diverge
        ∧ ∀ path t r, (bind m fuel from type c).1 ≠ Throw (CircularDependency path t r).
Proof.
  intros Hc fuel.
  assert (validate m b fuel type = Diverge) as Hv.
  { unfold validate. by rewrite validateType_cycle. }
  split; [by rewrite resolve_cycle|]. split; [done|].
  intros c from Hb.
  assert ((bind m fuel from type c).1 = Diverge) as Hd.
  { unfold bind; simpl. by rewrite Hb, Hv. }
  split; [done|]. intros path t r. by rewrite Hd.
Qed.

Lemma binding_cycle_never_returns_witness :
  cycleReachable (<[Examples.B := Examples.A]> {[Examples.A := Examples.B]})
    Examples.A
  ∧ ∀ fuel,
      (bind [] fuel Examples.B Examples.A
         (Container {[Examples.A := Examples.B]} ∅)).1 = Diverge.
Proof.
  assert (cycleReachable (<[Examples.B := Examples.A]> {[Examples.A := Examples.B]})
            Examples.A) as H.
  { exists 0, Examples.A, 1. split; [constructor|].
    econstructor; [reflexivity|]. econstructor; [reflexivity|]. constructor. }
  split; [exact H|].
  intros fuel.
  exact (proj1 (proj2 (proj2
    (binding_cycle_never_returns [] _ Examples.A H fuel))
    (Container {[Examples.A := Examples.B]} ∅) Examples.B eq_refl)).
Defined.

(** ** The validator *)

Lemma validateDefinition_mono vt vt' :
  (∀ t, refines (vt t) (vt' t)) ->
  ∀ d, refines (validateDefinition vt d) (validateDefinition vt' d).
Proof.
  intros Hvt. induction d as [t|l IH|l IH|] using definition_induction; simpl.
  - apply Hvt.
  - induction IH as [|d l Hd _ IHl]; [auto with depend|].
    apply refines_andThen; [apply Hd | intros _; apply IHl].
  - induction IH as [|[k d] l Hd _ IHl]; [auto with depend|].
    apply refines_andThen; [apply Hd | intros _; apply IHl].
  - apply refines_refl.
Qed.

Lemma validateInjectsOf_mono vt vt' type :
  (∀ t, refines (vt t) (vt' t)) ->
  ∀ l props, refines (validateInjectsOf vt type l props) (validateInjectsOf vt' type l props).
Proof.
  intros Hvt. induction l as [|[k d method] l IH]; intros props; simpl.
  - apply refines_refl.
  - destruct (decide (k ∈ props)); [apply IH|].
    apply refines_andThen; [apply refines_refl|intros _].
    apply refines_andThen; [by apply validateDefinition_mono|intros _].
    apply refines_andThen; [apply refines_refl|intros _]. apply IH.
Qed.

Lemma validateInjectsIn_mono m vt vt' type :
  (∀ t, refines (vt t) (vt' t)) ->
  ∀ chain props, refines (validateInjectsIn m vt type chain props) (validateInjectsIn m vt' type chain props).
Proof.
  intros Hvt. induction chain as [|c chain IH]; intros props; simpl.
  - apply refines_refl.
  - destruct (getData m c); [|apply IH].
    apply refines_andThen; [by apply validateInjectsOf_mono|intros ?; apply IH].
Qed.

Lemma resolve_more (b : gmap ctor ctor) fuel : ∀ fuel' t r, fuel ≤ fuel' ->
  (resolve fuel t b).1 = r -> r ≠ Diverge -> (resolve fuel' t b).1 = r.
Proof.
  induction fuel as [|fuel IH]; intros fuel' t r Hle; simpl; unfold andThen, mapGet; simpl.
  - destruct (b !! t) eqn:E; simpl; [congruence|]. intros <- _. by rewrite resolve_unbound.
  - destruct (b !! t) eqn:E; simpl.
    + destruct fuel' as [|fuel']; [lia|]. simpl; unfold andThen, mapGet; simpl. rewrite E.
      apply IH. lia.
    + intros <- _. by rewrite resolve_unbound.
Qed.

Lemma validateType_mono m b fuel : ∀ fuel', fuel ≤ fuel' ->
  ∀ t, refines (validateType m b fuel t) (validateType m b fuel' t).
Proof.
  induction fuel as [|fuel IH]; intros fuel' Hle t s r s'; simpl.
  - intros [= <- <-]. done.
  - destruct fuel' as [|fuel']; [lia|]. simpl.
    destruct (resolve fuel t b).1 as [resolved|e|] eqn:E.
    + rewrite (resolve_more b fuel fuel' t (Return resolved)) by (done || lia).
      destruct (has resolved s); [done|].
      assert (∀ t, refines (validateType m b fuel t) (validateType m b fuel' t)) as Hvt.
      { intros t'. apply IH. lia. }
      revert s r s'. apply refines_andThen.
      * destruct (construct _); [|apply refines_refl].
        apply refines_andThen; [apply refines_refl|intros _].
        apply refines_andThen; [|intros _; apply refines_refl].
        by apply (validateDefinition_mono _ _ Hvt (OrderedList _)).
      * intros _. by apply validateInjectsIn_mono.
    + rewrite (resolve_more b fuel fuel' t (Throw e)) by (done || lia). done.
    + intros [= <- <-]. done.
Qed.

Lemma pop_keeps_types t s : has t (pop s) = has t s.
Proof.
  unfold pop, has. destruct (last (stack s)) as [o|]; [|done]. simpl.
  apply bool_decide_ext. unfold set_delete. rewrite list_elem_of_filter.
  split; [by intros [_ ?] | by intros ?].
Qed.

(** C1: on the diamond [A -> B -> D], [A -> C -> D], [D -> E], which has no
    cycle, [validate A] throws [CircularDependency] when the walk meets [D] on
    the second branch.  The path at that moment is [A(constructor)],
    [C(constructor)]: the walk had returned from [D], but [pop] deleted the
    origin label from the set, not the type. *)
Theorem diamond_reported_as_cycle (fuel : nat) :
  validate Examples.diamond ∅ (4 + fuel) Examples.A
  = Throw (CircularDependency
             [OConstructor Examples.A; OConstructor Examples.C]
             Examples.D Examples.D).
Proof.
  unfold validate.
  destruct (validateType Examples.diamond ∅ 4 Examples.A newStack) as [r s] eqn:E.
  rewrite (validateType_mono Examples.diamond ∅ 4 (4 + fuel) ltac:(lia)
             Examples.A newStack r s E).
  - vm_compute in E. by simplify_eq.
  - vm_compute in E. by simplify_eq.
Qed.

(** The circular dependency tests of the repository: a binding that makes a
    type its own requirement, and three declarations closing a cycle, which
    the third declaration reports through the listener of the container. *)
Example bind_reports_direct_cycle :
  (bindOn 5 0 Examples.A Examples.B
     (newContainer 5
        (declareInject Examples.plain 5 Examples.B (Some (KString "a"))
           [TypeRef Examples.A] emptySystem).2).2).1
  = Throw (CircularDependency [OInject Examples.B (KString "a") false]
             Examples.A Examples.B).
Proof. vm_compute; reflexivity. Qed.

Example declaration_reports_cycle :
  (declareInject Examples.plain 5 Examples.C (Some (KString "a")) [TypeRef Examples.A]
     (declareInject Examples.plain 5 Examples.B (Some (KString "a")) [TypeRef Examples.C]
        (declareInject Examples.plain 5 Examples.A (Some (KString "a"))
           [TypeRef Examples.B] Examples.early).2).2).1
  = Throw (CircularDependency
             [OInject Examples.C (KString "a") false;
              OInject Examples.A (KString "a") false;
              OInject Examples.B (KString "a") false]
             Examples.C Examples.C).
Proof. vm_compute; reflexivity. Qed.

(** ** The injections of a compiled procedure *)

Lemma injectBuilderOf_firsts bnd tb fuel l : ∀ props b r b',
  injectBuilderOf bnd tb fuel l props b = (Return r, b') ->
  r.1 = rev (inj_key <$> firsts props l) ++ props
  ∧ Forall2 (compiledFrom bnd tb fuel) (firsts props l) r.2.
Proof.
  induction l as [|[k d method] l IH]; intros props b r b'; simpl.
  - intros [= <- <-]. simpl. split; [done|constructor].
  - destruct (decide (k ∈ props)); [apply IH|].
    intros H. andThen_inv H as st b1 Hst. andThen_inv H as r' b2 Hr.
    injection H as <- <-.
    apply IH in Hr as [Hp Hc]. simpl. split.
    + rewrite Hp. by rewrite <- app_assoc.
    + constructor; [|done]. exists b, b1. simpl. destruct method.
      * apply andThen_Return in Hst as (args & ? & Ha & [= <- <-]). eauto.
      * apply andThen_Return in Hst as (e & ? & Ha & [= <- <-]). eauto.
Qed.

Lemma firsts_app props l1 l2 :
  firsts props (l1 ++ l2)
  = firsts props l1 ++ firsts (rev (inj_key <$> firsts props l1) ++ props) l2.
Proof.
  revert props. induction l1 as [|i l1 IH]; intros props; simpl; [done|].
  destruct (decide (inj_key i ∈ props)); [apply IH|].
  simpl. rewrite IH. by rewrite <- app_assoc.
Qed.

Lemma injectBuilderIn_firsts m bnd tb fuel chain : ∀ props b stmts b',
  injectBuilderIn m bnd tb fuel chain props b = (Return stmts, b') ->
  Forall2 (compiledFrom bnd tb fuel) (firsts props (flat_map (declared m) chain)) stmts.
Proof.
  induction chain as [|c chain IH]; intros props b stmts b'; simpl.
  - intros [= <- <-]. constructor.
  - unfold declared at 1. destruct (getData m c) as [data|]; simpl.
    + intros H. andThen_inv H as r b1 Hr. andThen_inv H as body b2 Hb.
      injection H as <- <-.
      apply injectBuilderOf_firsts in Hr as [Hp Hc]. rewrite firsts_app.
      apply Forall2_app; [done|]. rewrite <- Hp. eapply IH; eauto.
    + apply IH.
Qed.

Lemma injectBuilder_injectionPoints m bnd tb fuel type b stmts b' :
  injectBuilder m bnd tb fuel type b = (Return stmts, b') ->
  Forall2 (compiledFrom bnd tb fuel) (injectionPoints m type) stmts.
Proof. apply injectBuilderIn_firsts. Qed.


Lemma firsts_keys l : ∀ props k, k ∈ inj_key <$> l -> k ∉ props -> k ∈ inj_key <$> firsts props l.
Proof.
  induction l as [|i l IH]; intros props k Hk Hp; simpl in *.
  - by apply elem_of_nil in Hk.
  - apply elem_of_cons in Hk. destruct (decide (inj_key i ∈ props)) as [Hin|Hnin].
    + destruct Hk as [->|Hk]; [done|]. by apply IH.
    + simpl. destruct (decide (k = inj_key i)) as [->|Hne]; [left|].
      right. destruct Hk as [->|Hk]; [done|]. apply IH; [done|].
      intros [?|?]%elem_of_cons; done.
Qed.

Lemma firsts_sublist l : ∀ props i, i ∈ firsts props l -> i ∈ l.
Proof.
  induction l as [|j l IH]; intros props i; simpl; [done|].
  destruct (decide (inj_key j ∈ props)).
  - intros H. right. eauto.
  - intros [->|H]%elem_of_cons; [left | right; eauto].
Qed.

Lemma compiledFrom_key bnd tb fuel i st : compiledFrom bnd tb fuel i st -> statementKey st = inj_key i.
Proof.
  intros (b1 & b2 & H). destruct (inj_method i).
  - by destruct H as (args & _ & ->).
  - by destruct H as (e & _ & ->).
Qed.


Lemma compiledFrom_filter bnd tb fuel k l stmts :
  Forall2 (compiledFrom bnd tb fuel) l stmts ->
  Forall2 (compiledFrom bnd tb fuel) (filter (fun i => inj_key i = k) l)
    (filter (fun st => statementKey st = k) stmts).
Proof.
  induction 1 as [|i st l stmts H _ IH]; simpl; [constructor|].
  rewrite !filter_cons. rewrite (compiledFrom_key _ _ _ _ _ H).
  destruct (decide (inj_key i = k)); [by constructor | done].
Qed.

Lemma firsts_filter k l : ∀ props,
  filter (fun i => inj_key i = k) (firsts props l)
  = if decide (k ∈ props) then [] else option_list (firstFor k l).
Proof.
  unfold firstFor. induction l as [|i l IH]; intros props; simpl.
  - by destruct (decide (k ∈ props)).
  - rewrite (filter_cons _ i l). destruct (decide (inj_key i ∈ props)) as [Hin|Hnin].
    + rewrite IH. destruct (decide (k ∈ props)); [done|].
      destruct (decide (inj_key i = k)) as [<-|]; done.
    + rewrite filter_cons. destruct (decide (inj_key i = k)) as [<-|Hne]; simpl.
      * rewrite IH. rewrite decide_True by left.
        by rewrite decide_False.
      * rewrite IH. destruct (decide (k ∈ props)) as [Hk|Hk].
        -- rewrite decide_True; [done | by right].
        -- rewrite decide_False; [done|]. intros [?|?]%elem_of_cons; done.
Qed.

Lemma firstFor_app k l1 l2 i : firstFor k l1 = Some i -> firstFor k (l1 ++ l2) = Some i.
Proof.
  unfold firstFor. rewrite filter_app. destruct (filter _ l1); [done|]. done.
Qed.

Lemma firsts_ext l : ∀ props props',
  (∀ k, k ∈ inj_key <$> l -> k ∈ props <-> k ∈ props') -> firsts props l = firsts props' l.
Proof.
  induction l as [|i l IH]; intros props props' H; simpl; [done|].
  assert (inj_key i ∈ props <-> inj_key i ∈ props') as Hi by (apply H; left).
  destruct (decide (inj_key i ∈ props)) as [Hin|Hnin].
  - rewrite decide_True by tauto. apply IH. intros k Hk. apply H. by right.
  - rewrite decide_False by tauto. f_equal. apply IH. intros k Hk.
    rewrite !elem_of_cons. rewrite (H k) by (by right). done.
Qed.

Lemma chain_head type : constructorChain type = type :: tail (constructorChain type).
Proof. by destruct type. Qed.

Lemma injectionPoints_own_first m type :
  injectionPoints m type
  = firsts [] (declared m type)
    ++ firsts (rev (inj_key <$> firsts [] (declared m type)) ++ [])
         (flat_map (declared m) (tail (constructorChain type))).
Proof.
  unfold injectionPoints. rewrite (chain_head type) at 1. simpl. apply firsts_app.
Qed.

Lemma firsts_all_keys l props k : k ∈ inj_key <$> firsts props l -> k ∈ inj_key <$> l.
Proof.
  intros (i & -> & Hi)%list_elem_of_fmap. apply list_elem_of_fmap. exists i. split; [done|].
  by eapply firsts_sublist.
Qed.

Lemma injectionPoints_disjoint m id B :
  (∀ k, k ∈ inj_key <$> declared m (Class id B) -> k ∉ inj_key <$> injectionPoints m B) ->
  injectionPoints m (Class id B) = firsts [] (declared m (Class id B)) ++ injectionPoints m B.
Proof.
  intros Hd. rewrite injectionPoints_own_first. f_equal.
  unfold injectionPoints. simpl. apply firsts_ext. intros k Hk.
  rewrite app_nil_r, list_elem_of_In, <- in_rev, <- list_elem_of_In. split; [|by intros ?%elem_of_nil].
  intros Hown%firsts_all_keys. exfalso. apply (Hd k Hown).
  apply firsts_keys; [done | by intros ?%elem_of_nil].
Qed.

Lemma typeBuilder_compiles m bnd fuel type b e b' :
  typeBuilder m bnd (S fuel) type true b = (Return e, b') ->
  abstract (default newData (getData m type)) = false ->
  ∃ body, b' !! type = Some (BProcedure body)
    ∧ p_type body = type
    ∧ p_singleton body = singleton (default newData (getData m type))
    ∧ Forall2 (compiledFrom bnd (typeBuilder m bnd fuel) fuel)
        (injectionPoints m type) (p_injections body).
Proof.
  simpl. intros H Ha. rewrite Ha in H.
  andThen_inv H as cp b1 Hcp. andThen_inv H as inj b2 Hinj.
  injection H as <- <-. eexists. split; [apply lookup_insert_eq|]. simpl.
  split; [done|]. split; [done|]. by eapply injectBuilder_injectionPoints.
Qed.

(** [create] of a type with a compiled procedure runs that procedure, and
    the statements run in the order of the generated source. *)
Lemma create_compiled P A fuel t body rt :
  r_build rt !! t = Some (BProcedure body) ->
  create P A fuel t rt = runProcedure P A (invoke P A fuel) body rt.
Proof. intros H. unfold create, get. by rewrite H. Qed.

Lemma perform_app P A inv instance l1 l2 : ∀ promises rt,
  perform P A inv instance (l1 ++ l2) promises rt
  = (promises' <- perform P A inv instance l1 promises ;;
     perform P A inv instance l2 promises') rt.
Proof.
  induction l1 as [|[k args|k e] l1 IH]; intros promises rt; simpl.
  - done.
  - rewrite !andThen_assoc. apply andThen_ext. intros vs rt1.
    rewrite !andThen_assoc. apply andThen_ext. intros result rt2. apply IH.
  - rewrite !andThen_assoc. apply andThen_ext. intros v rt1.
    rewrite !andThen_assoc. apply andThen_ext. intros [] rt2. apply IH.
Qed.




(** At the time it is compiled, the procedure of a class [Class id B] has,
    for a key the class declares, exactly one statement, compiled from the
    declaration of the class itself, whatever [B] and its ancestors declare
    for that key; and when the keys the class declares differ from those in
    force for [B], the statements are those of the class followed by all
    those in force for [B]. *)
Theorem subclass_injections (m : store) (bnd : gmap ctor ctor) (fuel : nat)
    (id : nat) (B : ctor) (b b' : gmap ctor builder) (e : expr) :
  typeBuilder m bnd (S fuel) (Class id B) true b = (Return e, b') ->
  abstract (default newData (getData m (Class id B))) = false ->
  ∃ body,
    b' !! Class id B = Some (BProcedure body)
    ∧ (∀ k iC,
         firstFor k (declared m (Class id B)) = Some iC ->
         ∃ st,
           filter (fun st => statementKey st = k) (p_injections body) = [st]
           ∧ compiledFrom bnd (typeBuilder m bnd fuel) fuel iC st)
    ∧ ((∀ k, k ∈ inj_key <$> declared m (Class id B) ->
             k ∉ inj_key <$> injectionPoints m B) ->
       Forall2 (compiledFrom bnd (typeBuilder m bnd fuel) fuel)
         (firsts [] (declared m (Class id B)) ++ injectionPoints m B)
         (p_injections body)).
Proof.
  intros H Ha.
  destruct (typeBuilder_compiles _ _ _ _ _ _ _ H Ha) as (body & Hb & _ & _ & Hc).
  exists body. split; [done|]. split.
  - intros k iC HiC.
    pose proof (compiledFrom_filter _ _ _ k _ _ Hc) as Hf.
    unfold injectionPoints in Hf. rewrite firsts_filter in Hf.
    rewrite decide_False in Hf by (by intros ?%elem_of_nil).
    simpl in Hf. rewrite (firstFor_app _ _ _ _ HiC) in Hf. simpl in Hf.
    inversion Hf as [|? st ? l' Hst Hnil]; subst. inversion Hnil; subst.
    exists st. split; [done|done].
  - intros Hd. by rewrite <- injectionPoints_disjoint.
Qed.

Lemma subclass_injections_witness :
  typeBuilder Examples.overriding ∅ 3 Examples.Derived true ∅
    = (Return (EBuild Examples.Derived),
       (typeBuilder Examples.overriding ∅ 3 Examples.Derived true ∅).2)
  ∧ abstract (default newData (getData Examples.overriding Examples.Derived)) = false
  ∧ ∃ body,
      (typeBuilder Examples.overriding ∅ 3 Examples.Derived true ∅).2 !! Examples.Derived
        = Some (BProcedure body)
      ∧ ∀ k iC,
          firstFor k (declared Examples.overriding Examples.Derived) = Some iC ->
          ∃ st,
            filter (fun st => statementKey st = k) (p_injections body) = [st]
            ∧ compiledFrom ∅ (typeBuilder Examples.overriding ∅ 2) 2 iC st.
Proof.
  assert (typeBuilder Examples.overriding ∅ 3 Examples.Derived true ∅
          = (Return (EBuild Examples.Derived),
             (typeBuilder Examples.overriding ∅ 3 Examples.Derived true ∅).2)) as H
    by (vm_compute; reflexivity).
  assert (abstract (default newData (getData Examples.overriding Examples.Derived))
          = false) as Ha by reflexivity.
  split; [exact H|]. split; [exact Ha|].
  destruct (subclass_injections Examples.overriding ∅ 2 11 Examples.Base ∅ _ _ H Ha)
    as (body & Hb & Hsame & _).
  exists body. split; [exact Hb | exact Hsame].
Defined.

(** The two inheritance tests of the repository: [create(Derived)] assigns
    [b] and the inherited [a]; with [a] overridden it assigns the [B] of
    [Derived] only, and no [A] is constructed. *)
Example create_inherits :
  (createOn Examples.plain 5 0 Examples.Derived
     (newContainer 5 (System Examples.family [] [] 0 [])).2).1
  = Return (VInstance 0 Examples.Derived)
  ∧ LOG (createOn Examples.plain 5 0 Examples.Derived
           (newContainer 5 (System Examples.family [] [] 0 [])).2).2
    = [EvNew Examples.Derived [];
       EvNew Examples.B [];
       EvAssign (VInstance 0 Examples.Derived) (KString "b") (VInstance 1 Examples.B);
       EvNew Examples.A [];
       EvAssign (VInstance 0 Examples.Derived) (KString "a") (VInstance 2 Examples.A)].
Proof. split; vm_compute; reflexivity. Qed.

Example create_overrides :
  LOG (createOn Examples.plain 5 0 Examples.Derived
         (newContainer 5 (System Examples.overriding [] [] 0 [])).2).2
  = [EvNew Examples.Derived [];
     EvNew Examples.B [];
     EvAssign (VInstance 0 Examples.Derived) (KString "a") (VInstance 1 Examples.B)].
Proof. vm_compute; reflexivity. Qed.

(** ** Abstract types *)

Section BuilderInvariant.
Variable m : store.
Variable bnd : gmap ctor ctor.
Variable Q : gmap ctor builder -> Prop.
Hypothesis Q_redirect : ∀ any resolved b,
  Q b -> bnd !! any ≠ None -> Q (<[any := BRedirect resolved]> b).
Hypothesis Q_abstract : ∀ t b,
  Q b -> abstract (default newData (getData m t)) = true -> Q (<[t := BAbstract t]> b).
Hypothesis Q_procedure : ∀ t body b,
  Q b -> abstract (default newData (getData m t)) = false -> p_type body = t ->
  Q (<[t := BProcedure body]> b).

Lemma anyBuilder_preserves tb fuel :
  (∀ t rb, preserves Q (tb t rb)) ->
  ∀ d rb, preserves Q (anyBuilder bnd tb fuel d rb).
Proof.
  intros Htb. induction d as [t|l IH|l IH|] using definition_induction; intros rb; simpl.
  - intros b r b' HQ. destruct (resolve fuel t bnd).1 as [resolved|e|] eqn:E.
    + intros H. eapply Htb; [|exact H]. destruct (decide (resolved = t)) as [->|Hne]; [done|].
      apply Q_redirect; [done|]. intros Hn. apply Hne.
      rewrite (resolve_unbound _ _ _ Hn) in E. simpl in E. by simplify_eq.
    + by intros [= <- <-].
    + by intros [= <- <-].
  - apply preserves_andThen; [|auto with depend].
    induction IH as [|d l Hd _ IHl]; [auto with depend|].
    apply preserves_andThen; [apply Hd|intros ?].
    apply preserves_andThen; [apply IHl|auto with depend].
  - apply preserves_andThen; [|auto with depend].
    induction IH as [|[k d] l Hd _ IHl]; [auto with depend|].
    apply preserves_andThen; [apply Hd|intros ?].
    apply preserves_andThen; [apply IHl|auto with depend].
  - apply preserves_throw.
Qed.

Lemma arrayBuilder_preserves tb fuel :
  (∀ t rb, preserves Q (tb t rb)) ->
  ∀ d, preserves Q (arrayBuilder bnd tb fuel d).
Proof.
  intros Htb [t|l|l|]; simpl; try apply preserves_throw.
  induction l as [|d l IH]; simpl; [auto with depend|].
  apply preserves_andThen; [by apply anyBuilder_preserves|intros ?].
  apply preserves_andThen; [apply IH|auto with depend].
Qed.

Lemma injectBuilderOf_preserves tb fuel :
  (∀ t rb, preserves Q (tb t rb)) ->
  ∀ l props, preserves Q (injectBuilderOf bnd tb fuel l props).
Proof.
  intros Htb. induction l as [|[k d method] l IH]; intros props; simpl.
  - apply preserves_ret.
  - destruct (decide (k ∈ props)); [apply IH|].
    apply preserves_andThen.
    + destruct method.
      * apply preserves_andThen; [by apply arrayBuilder_preserves|auto with depend].
      * apply preserves_andThen; [by apply anyBuilder_preserves|auto with depend].
    + intros ?. apply preserves_andThen; [apply IH|auto with depend].
Qed.

Lemma injectBuilderIn_preserves tb fuel :
  (∀ t rb, preserves Q (tb t rb)) ->
  ∀ chain props, preserves Q (injectBuilderIn m bnd tb fuel chain props).
Proof.
  intros Htb. induction chain as [|c chain IH]; intros props; simpl.
  - apply preserves_ret.
  - destruct (getData m c); [|apply IH].
    apply preserves_andThen; [by apply injectBuilderOf_preserves|intros ?].
    apply preserves_andThen; [apply IH|auto with depend].
Qed.

Lemma typeBuilder_preserves fuel : ∀ t rb, preserves Q (typeBuilder m bnd fuel t rb).
Proof.
  induction fuel as [|fuel IH]; intros t rb; simpl.
  - by intros b r b' HQ [= <- <-].
  - intros b r b' HQ.
    destruct (rb || negb (bool_decide (is_Some (b !! t)))); [|by intros [= <- <-]].
    destruct (abstract _) eqn:Ea.
    + intros [= <- <-]. by apply Q_abstract.
    + revert b r b' HQ.
      apply preserves_andThen.
      * destruct (construct _); [|apply preserves_ret].
        by apply (arrayBuilder_preserves _ _ IH (OrderedList _)).
      * intros cp. apply preserves_andThen; [by apply injectBuilderIn_preserves|].
        intros inj b r b' HQ [= <- <-]. by apply Q_procedure.
Qed.

Lemma build_preserves fuel d : preserves Q (build m bnd fuel d).
Proof.
  apply preserves_andThen; [|auto with depend].
  apply anyBuilder_preserves. apply typeBuilder_preserves.
Qed.
End BuilderInvariant.

Lemma build_keeps_abstract m bnd fuel d : preserves (abstractKept m bnd) (build m bnd fuel d).
Proof.
  apply build_preserves.
  - intros any resolved b HQ Hb t Ha Hu. rewrite lookup_insert_ne by congruence. by apply HQ.
  - intros t b HQ Ha t' Ha' Hu. destruct (decide (t = t')) as [->|Hne].
    + right. apply lookup_insert_eq.
    + rewrite lookup_insert_ne by done. by apply HQ.
  - intros t body b HQ Ha Hp t' Ha' Hu. rewrite lookup_insert_ne by congruence. by apply HQ.
Qed.

Lemma build_keeps_built m bnd fuel d t : preserves (fun b => is_Some (b !! t)) (build m bnd fuel d).
Proof.
  apply build_preserves; intros; rewrite lookup_insert; case_decide; eauto.
Qed.

Lemma build_builds m bnd fuel t b b' :
  bnd !! t = None ->
  build m bnd fuel (TypeRef t) b = (Return tt, b') -> is_Some (b' !! t).
Proof.
  intros Hu. unfold build. intros H. apply andThen_Return in H as (e & b1 & H & [= <-]).
  simpl in H. rewrite (resolve_unbound _ _ _ Hu) in H. simpl in H.
  rewrite decide_True in H by done.
  destruct fuel as [|fuel]; simpl in H; [by simplify_eq|].
  destruct (abstract _).
  - injection H as <- <-. rewrite lookup_insert_eq. eauto.
  - apply andThen_Return in H as (cp & b2 & _ & H).
    apply andThen_Return in H as (inj & b3 & _ & H).
    injection H as <- <-. rewrite lookup_insert_eq. eauto.
Qed.

Lemma getData_setData m t d : getData (setData m t d) t = Some d.
Proof.
  induction m as [|[t' d'] m IH]; simpl.
  - by rewrite decide_True.
  - destruct (decide (t' = t)) as [->|Hne]; simpl.
    + by rewrite decide_True.
    + by rewrite decide_False.
Qed.

Lemma getData_known m t d : getData m t = Some d -> t ∈ known m.
Proof.
  unfold known. induction m as [|[t' d'] m IH]; simpl; [done|].
  destruct (decide (t' = t)) as [->|Hne]; [left | right; auto].
Qed.

Lemma update_spec m fuel t c r c' :
  update m fuel t c = (r, c') ->
  BINDING c' = BINDING c
  ∧ (abstractKept m (BINDING c) (BUILD c) -> abstractKept m (BINDING c) (BUILD c'))
  ∧ (∀ x, is_Some (BUILD c !! x) -> is_Some (BUILD c' !! x))
  ∧ (r = Return tt -> BINDING c !! t = None -> is_Some (BUILD c' !! t)).
Proof.
  unfold update. destruct (validate m (BINDING c) fuel t) as [[]|e|].
  - destruct (build m (BINDING c) fuel (TypeRef t) (BUILD c)) as [r' b'] eqn:E.
    simpl. intros [= <- <-]. simpl. split; [done|]. split; [|split].
    + intros HQ. eapply build_keeps_abstract; eauto.
    + intros x Hx. eapply (build_keeps_built _ _ _ _ x); eauto.
    + intros -> Hu. eapply build_builds; eauto.
  - intros [= <- <-]. repeat split; auto; done.
  - intros [= <- <-]. repeat split; auto; done.
Qed.

Lemma prebuild_spec m fuel i types : ∀ sys sys' c,
  MODULE sys = m ->
  LISTENERS sys !! i = Some c ->
  BINDING c = ∅ ->
  abstractKept m ∅ (BUILD c) ->
  prebuild fuel i types sys = (Return tt, sys') ->
  ∃ c', LISTENERS sys' !! i = Some c'
        ∧ abstractKept m ∅ (BUILD c')
        ∧ ABSTRACTED sys' = ABSTRACTED sys
        ∧ (∀ x, is_Some (BUILD c !! x) -> is_Some (BUILD c' !! x))
        ∧ ∀ t, t ∈ types -> is_Some (BUILD c' !! t).
Proof.
  induction types as [|t types IH]; intros sys sys' c Hm Hi Hb HQ; simpl.
  - intros [= <-]. exists c. repeat split; auto. intros t Ht. by apply elem_of_nil in Ht.
  - intros H. apply andThen_Return in H as ([] & sys1 & Hstep & H).
    unfold onContainer in Hstep. rewrite Hi, Hm in Hstep.
    destruct (update m fuel t c) as [r c1] eqn:Eu. simpl in Hstep.
    injection Hstep as -> <-.
    apply update_spec in Eu as (Hb1 & HQ1 & Hmono & Hbuilt).
    rewrite Hb in *.
    apply (IH _ _ c1) in H as (c' & Hi' & HQ' & Ha' & Hmono' & Hall); simpl; auto.
    + exists c'. split; [done|]. split; [done|]. split; [done|]. split; [by auto|].
      intros x [->|Hx]%elem_of_cons; [|by auto].
      apply Hmono'. apply Hbuilt; done.
    + apply list_lookup_insert_eq. by eapply lookup_lt_Some.
Qed.

Lemma newContainer_abstract fuel sys i sys' t :
  newContainer fuel sys = (Return i, sys') ->
  t ∈ known (MODULE sys) ->
  abstract (default newData (getData (MODULE sys) t)) = true ->
  ∃ c, LISTENERS sys' !! i = Some c ∧ BUILD c !! t = Some (BAbstract t)
       ∧ ABSTRACTED sys' = ABSTRACTED sys.
Proof.
  unfold newContainer. intros H Ht Ha.
  apply andThen_Return in H as ([] & sys1 & H & [= <- <-]).
  eapply (prebuild_spec (MODULE sys) _ _ _ _ _ (Container ∅ ∅)) in H
    as (c' & Hi & HQ & Habs & _ & Hall); simpl; auto.
  - exists c'. split; [done|]. split; [|done].
    destruct (Hall t Ht) as [bt Hbt]. destruct (HQ t Ha) as [Hn|Hs]; [done| congruence |done].
  - rewrite lookup_app_r by done. by rewrite Nat.sub_diag.
  - intros x _ _. by left.
Qed.

Lemma createOn_abstract P fuel i sys c t :
  LISTENERS sys !! i = Some c -> BUILD c !! t = Some (BAbstract t) ->
  (createOn P fuel i t sys).1 = Throw (AbstractInstantiation t).
Proof.
  intros Hi Hb. unfold createOn. rewrite Hi. simpl. unfold create, get. simpl.
  by rewrite Hb.
Qed.

(** C9: [declareAbstract] with a key that names no function on the prototype
    throws the invalid-target error after the record of the type has been
    created and marked abstract; no change event is emitted, and in a
    container created afterwards [create] of the type fails with the
    abstract-instantiation error. *)
Theorem declareAbstract_not_atomic (P : program) (fuel : nat) (sys : system)
    (type : ctor) (k : key) :
  key_truthy (Some k) = true ->
  isMethod P (ABSTRACTED sys) type k = false ->
  (declareAbstract P fuel type (Some k) sys).1 = Throw InvalidAbstractTarget
  ∧ (∃ d, getData (MODULE (declareAbstract P fuel type (Some k) sys).2) type = Some d
          ∧ abstract d = true)
  ∧ LISTENERS (declareAbstract P fuel type (Some k) sys).2 = LISTENERS sys
  ∧ ∀ fuel1 fuel2 i sys',
      newContainer fuel1 (declareAbstract P fuel type (Some k) sys).2
        = (Return i, sys') ->
      (createOn P fuel2 i type sys').1 = Throw (AbstractInstantiation type).
Proof.
  intros Hk Hm. unfold declareAbstract, given. rewrite Hk. simpl. rewrite Hm.
  simpl. split; [done|].
  assert (getData (setData (MODULE sys) type
            (markAbstract (default newData (getData (MODULE sys) type)))) type
          = Some (markAbstract (default newData (getData (MODULE sys) type)))) as Hd
    by apply getData_setData.
  split; [eauto|]. split; [done|].
  intros fuel1 fuel2 i sys' Hnew.
  eapply newContainer_abstract in Hnew as (c & Hi & Hb & _).
  - by eapply createOn_abstract.
  - simpl. by eapply getData_known.
  - simpl. by rewrite Hd.
Qed.

Lemma declareAbstract_not_atomic_witness :
  key_truthy (Some (KString "field")) = true
  ∧ isMethod Examples.plain (ABSTRACTED Examples.early) Examples.T (KString "field")
    = false
  ∧ (declareAbstract Examples.plain 5 Examples.T (Some (KString "field"))
       Examples.early).1 = Throw InvalidAbstractTarget
  ∧ (createOn Examples.plain 5 1 Examples.T
       (newContainer 5
          (declareAbstract Examples.plain 5 Examples.T (Some (KString "field"))
             Examples.early).2).2).1
    = Throw (AbstractInstantiation Examples.T).
Proof.
  split; [reflexivity|]. split; [reflexivity|].
  destruct (declareAbstract_not_atomic Examples.plain 5 Examples.early Examples.T
              (KString "field") eq_refl eq_refl) as (H1 & _ & _ & H4).
  split; [exact H1|].
  apply (H4 5 5 1). vm_compute. reflexivity.
Defined.

(** The declarations that end in [emit] have every attached container run
    its listener on the type. *)
Lemma emit_updates_all fuel type sys sys' :
  emit fuel type sys = (Return tt, sys') ->
  MODULE sys' = MODULE sys
  ∧ Forall2 (fun c c' => update (MODULE sys) fuel type c = (Return tt, c'))
      (LISTENERS sys) (LISTENERS sys').
Proof.
  unfold emit. destruct sys as [m a ls n l]. simpl.
  generalize (eq_refl (emitTo m fuel type ls)).
  generalize (emitTo m fuel type ls) at 2 3 4. intros [r ls'] E. simpl.
  intros [= -> <-]. simpl. split; [done|].
  revert ls' E. induction ls as [|c ls IH]; intros ls'; simpl.
  - intros [= <-]. constructor.
  - destruct (update m fuel type c) as [[[]|e|] c'] eqn:Eu; [|done|done].
    destruct (emitTo m fuel type ls) as [r ls1] eqn:E1. simpl.
    intros [= -> <-]. constructor; [done|]. by apply IH.
Qed.

Lemma declareSingleton_emits fuel type sys sys' :
  declareSingleton fuel type sys = (Return tt, sys') ->
  Forall2 (fun c c' => update (MODULE sys') fuel type c = (Return tt, c'))
    (LISTENERS sys) (LISTENERS sys').
Proof.
  unfold declareSingleton. intros H. apply emit_updates_all in H as [Hm H].
  by rewrite Hm.
Qed.

Lemma declareAbstract_class_emits P fuel type sys sys' :
  declareAbstract P fuel type None sys = (Return tt, sys') ->
  Forall2 (fun c c' => update (MODULE sys') fuel type c = (Return tt, c'))
    (LISTENERS sys) (LISTENERS sys').
Proof.
  unfold declareAbstract; simpl. intros H. apply emit_updates_all in H as [Hm H].
  by rewrite Hm.
Qed.

(** The method form of [declareAbstract] returns before [emit]. *)
Lemma declareAbstract_method_silent P fuel type k sys :
  key_truthy (Some k) = true ->
  isMethod P (ABSTRACTED sys) type k = true ->
  ∃ sys',
    declareAbstract P fuel type (Some k) sys = (Return tt, sys')
    ∧ LISTENERS sys' = LISTENERS sys
    ∧ abstract (default newData (getData (MODULE sys') type)) = true.
Proof.
  intros Hk Hm. unfold declareAbstract, given. rewrite Hk. simpl. rewrite Hm.
  eexists. split; [done|]. simpl. split; [done|]. by rewrite getData_setData.
Qed.

(** C8, where the code departs from it: a container is attached to the
    store, then the method [m] of [T] is declared abstract.  The call
    completes and marks the record of [T] abstract, but no listener runs: the
    container has no builder for [T], where the class form of the same
    declaration leaves the throwing builder. *)
Theorem abstract_method_declaration_emits_nothing :
  ∃ sys',
    declareAbstract Examples.plain 5 Examples.T (Some Examples.m) Examples.early
      = (Return tt, sys')
    ∧ getData (MODULE sys') Examples.T = Some (Data [] None None true false)
    ∧ LISTENERS sys' = LISTENERS Examples.early
    ∧ BUILD <$> LISTENERS sys' !! 0 = Some ∅
    ∧ (λ c, BUILD c !! Examples.T)
        <$> LISTENERS (declareAbstract Examples.plain 5 Examples.T None
                         Examples.early).2 !! 0
      = Some (Some (BAbstract Examples.T)).
Proof.
  eexists. split; [vm_compute; reflexivity|].
  split; [reflexivity|]. split; [reflexivity|]. split; [reflexivity|].
  vm_compute. reflexivity.
Qed.

(** C6, where the code departs from it: after the same declaration the
    metadata of [T] marks it abstract, and [create(T)] on the container
    attached before constructs an instance of [T]. *)
Theorem abstract_type_still_constructed :
  abstract
    (default newData
       (getData
          (MODULE (declareAbstract Examples.plain 5 Examples.T (Some Examples.m)
                     Examples.early).2)
          Examples.T)) = true
  ∧ (createOn Examples.plain 5 0 Examples.T
       (declareAbstract Examples.plain 5 Examples.T (Some Examples.m)
          Examples.early).2).1
    = Return (VInstance 0 Examples.T).
Proof. split; vm_compute; reflexivity. Qed.

(** The tests of the repository on abstract classes: in a container created
    after the declaration, [create] throws for both forms. *)
Example create_abstract_after_declaration :
  (createOn Examples.plain 5 0 Examples.T
     (newContainer 5
        (declareAbstract Examples.plain 5 Examples.T (Some Examples.m)
           emptySystem).2).2).1
  = Throw (AbstractInstantiation Examples.T)
  ∧ (createOn Examples.plain 5 0 Examples.T
       (newContainer 5
          (declareAbstract Examples.plain 5 Examples.T None emptySystem).2).2).1
    = Throw (AbstractInstantiation Examples.T).
Proof. split; vm_compute; reflexivity. Qed.

(** ** Declarations on an ancestor of a compiled class *)

Section BuilderFrame.
Variable m : store.
Variable bnd : gmap ctor ctor.
Variable D : ctor.
Variable bD : builder.
Hypothesis D_unbound : bnd !! D = None.

Lemma anyBuilder_frame tb fuel :
  (∀ t, preserves (keeps D bD) (tb t false)) ->
  ∀ d, preserves (keeps D bD) (anyBuilder bnd tb fuel d false).
Proof.
  intros Htb. induction d as [t|l IH|l IH|] using definition_induction; simpl.
  - intros b r b' HQ. destruct (resolve fuel t bnd).1 as [resolved|e|] eqn:E.
    + intros H. eapply Htb; [|exact H]. destruct (decide (resolved = t)) as [->|Hne]; [done|].
      unfold keeps. rewrite lookup_insert_ne; [done|]. intros ->. apply Hne.
      rewrite (resolve_unbound _ _ _ D_unbound) in E. simpl in E. by simplify_eq.
    + by intros [= <- <-].
    + by intros [= <- <-].
  - apply preserves_andThen; [|auto with depend].
    induction IH as [|d l Hd _ IHl]; [auto with depend|].
    apply preserves_andThen; [apply Hd|intros ?].
    apply preserves_andThen; [apply IHl|auto with depend].
  - apply preserves_andThen; [|auto with depend].
    induction IH as [|[k d] l Hd _ IHl]; [auto with depend|].
    apply preserves_andThen; [apply Hd|intros ?].
    apply preserves_andThen; [apply IHl|auto with depend].
  - apply preserves_throw.
Qed.

Lemma arrayBuilder_frame tb fuel :
  (∀ t, preserves (keeps D bD) (tb t false)) ->
  ∀ d, preserves (keeps D bD) (arrayBuilder bnd tb fuel d).
Proof.
  intros Htb [t|l|l|]; simpl; try apply preserves_throw.
  induction l as [|d l IH]; simpl; [auto with depend|].
  apply preserves_andThen; [by apply anyBuilder_frame|intros ?].
  apply preserves_andThen; [apply IH|auto with depend].
Qed.

Lemma injectBuilderOf_frame tb fuel :
  (∀ t, preserves (keeps D bD) (tb t false)) ->
  ∀ l props, preserves (keeps D bD) (injectBuilderOf bnd tb fuel l props).
Proof.
  intros Htb. induction l as [|[k d method] l IH]; intros props; simpl.
  - apply preserves_ret.
  - destruct (decide (k ∈ props)); [apply IH|].
    apply preserves_andThen.
    + destruct method.
      * apply preserves_andThen; [by apply arrayBuilder_frame|auto with depend].
      * apply preserves_andThen; [by apply anyBuilder_frame|auto with depend].
    + intros ?. apply preserves_andThen; [apply IH|auto with depend].
Qed.

Lemma injectBuilderIn_frame tb fuel :
  (∀ t, preserves (keeps D bD) (tb t false)) ->
  ∀ chain props, preserves (keeps D bD) (injectBuilderIn m bnd tb fuel chain props).
Proof.
  intros Htb. induction chain as [|c chain IH]; intros props; simpl.
  - apply preserves_ret.
  - destruct (getData m c); [|apply IH].
    apply preserves_andThen; [by apply injectBuilderOf_frame|intros ?].
    apply preserves_andThen; [apply IH|auto with depend].
Qed.

Lemma typeBuilder_frame fuel : ∀ t rb,
  (rb = true -> t ≠ D) -> preserves (keeps D bD) (typeBuilder m bnd fuel t rb).
Proof.
  induction fuel as [|fuel IH]; intros t rb Hrb; simpl.
  - by intros b r b' HQ [= <- <-].
  - intros b r b' HQ.
    destruct (rb || negb (bool_decide (is_Some (b !! t)))) eqn:Econd;
      [|by intros [= <- <-]].
    assert (t ≠ D) as Hne.
    { destruct rb; [by apply Hrb|]. simpl in Econd. intros ->.
      rewrite bool_decide_eq_true_2 in Econd; [done|]. rewrite HQ. eauto. }
    assert (∀ t', preserves (keeps D bD) (typeBuilder m bnd fuel t' false)) as IH'.
    { intros t'. by apply IH. }
    destruct (abstract _) eqn:Ea.
    + intros [= <- <-]. unfold keeps. by rewrite lookup_insert_ne.
    + clear Econd. revert b r b' HQ.
      apply preserves_andThen.
      * destruct (construct _); [|apply preserves_ret].
        by apply (arrayBuilder_frame _ _ IH' (OrderedList _)).
      * intros cp. apply preserves_andThen; [by apply injectBuilderIn_frame|].
        intros inj b r b' HQ [= <- <-]. unfold keeps. by rewrite lookup_insert_ne.
Qed.

Lemma build_frame fuel type :
  (resolve fuel type bnd).1 ≠ Return D ->
  preserves (keeps D bD) (build m bnd fuel (TypeRef type)).
Proof.
  intros Hr. apply preserves_andThen; [|auto with depend]. simpl.
  intros b r b' HQ. destruct (resolve fuel type bnd).1 as [resolved|e|] eqn:E.
  - intros H. eapply (typeBuilder_frame fuel resolved true); [congruence| |exact H].
    destruct (decide (resolved = type)) as [->|Hne]; [done|].
    unfold keeps. rewrite lookup_insert_ne; [done|]. intros ->. apply Hne.
    rewrite (resolve_unbound _ _ _ D_unbound) in E. simpl in E. by simplify_eq.
  - by intros [= <- <-].
  - by intros [= <- <-].
Qed.
End BuilderFrame.

(** The listener of a container compiles the declared type again, and no
    other: a type without a binding keeps the builder it has. *)
Lemma update_keeps_other m fuel type c r c' D bD :
  update m fuel type c = (r, c') ->
  BINDING c !! D = None ->
  (resolve fuel type (BINDING c)).1 ≠ Return D ->
  BUILD c !! D = Some bD ->
  BUILD c' !! D = Some bD.
Proof.
  unfold update. intros H Hu Hr Hb.
  destruct (validate m (BINDING c) fuel type) as [[]|e|]; [|by simplify_eq..].
  destruct (build m (BINDING c) fuel (TypeRef type) (BUILD c)) as [r' b'] eqn:E.
  simpl in H. injection H as <- <-. simpl.
  by eapply (build_frame m (BINDING c) D bD Hu fuel type Hr (BUILD c)).
Qed.

(** So does a declaration, on every listening container: it hands the
    declared type to [update], and the procedures compiled for other types,
    those of its subclasses among them, stay as they were. *)
Lemma declareInject_keeps_others P fuel type k definitions sys sys' :
  declareInject P fuel type k definitions sys = (Return tt, sys') ->
  Forall2 (fun c c' =>
             ∀ D bD, BINDING c !! D = None ->
                     (resolve fuel type (BINDING c)).1 ≠ Return D ->
                     BUILD c !! D = Some bD -> BUILD c' !! D = Some bD)
    (LISTENERS sys) (LISTENERS sys').
Proof.
  assert (∀ s, LISTENERS s = LISTENERS sys ->
            emit fuel type s = (Return tt, sys') ->
            Forall2 (fun c c' =>
               ∀ D bD, BINDING c !! D = None ->
                       (resolve fuel type (BINDING c)).1 ≠ Return D ->
                       BUILD c !! D = Some bD -> BUILD c' !! D = Some bD)
              (LISTENERS sys) (LISTENERS sys')) as Hemit.
  { intros s Hl H. apply emit_updates_all in H as [_ H]. rewrite Hl in H.
    eapply Forall2_impl; [exact H|]. intros c c' Hu D bD Hunbound Hresolve Hbuilt.
    exact (update_keeps_other _ _ _ _ _ _ _ _ Hu Hunbound Hresolve Hbuilt). }
  unfold declareInject. destruct (given k) as [k'|].
  - destruct (isMethod _ _ _ _); [by apply Hemit|].
    destruct (decide _); [done|by apply Hemit].
  - destruct (construct _); [done|by apply Hemit].
Qed.

(** C5, where the code departs from it: a container is listening when
    [Derived] declares its injection into [b], and [Base], which [Derived]
    extends, declares its injection into [a] only afterwards.  Both
    declarations complete, and the injection points in force for [Derived]
    are [b] and the inherited [a]; but the declaration on [Base] recompiles
    [Base] alone, so [create(Derived)] on that container runs the procedure
    compiled before: it assigns [b] and never [a].  [create(Base)] on the
    same container assigns [a], and so does [create(Derived)] on a container
    created after the declarations. *)
Theorem inherited_injection_missed :
  let sys := Examples.baseLater.2 in
  Examples.derivedFirst.1 = Return tt
  ∧ Examples.baseLater.1 = Return tt
  ∧ injectionPoints (MODULE sys) Examples.Derived
    = [Examples.property "b" Examples.B; Examples.property "a" Examples.A]
  ∧ (createOn Examples.plain 5 0 Examples.Derived sys).1
    = Return (VInstance 0 Examples.Derived)
  ∧ LOG (createOn Examples.plain 5 0 Examples.Derived sys).2
    = [EvNew Examples.Derived [];
       EvNew Examples.B [];
       EvAssign (VInstance 0 Examples.Derived) (KString "b") (VInstance 1 Examples.B)]
  ∧ LOG (createOn Examples.plain 5 0 Examples.Base sys).2
    = [EvNew Examples.Base [];
       EvNew Examples.A [];
       EvAssign (VInstance 0 Examples.Base) (KString "a") (VInstance 1 Examples.A)]
  ∧ (newContainer 5 sys).1 = Return 1
  ∧ LOG (createOn Examples.plain 5 1 Examples.Derived (newContainer 5 sys).2).2
    = [EvNew Examples.Derived [];
       EvNew Examples.B [];
       EvAssign (VInstance 0 Examples.Derived) (KString "b") (VInstance 1 Examples.B);
       EvNew Examples.A [];
       EvAssign (VInstance 0 Examples.Derived) (KString "a") (VInstance 2 Examples.A)].
Proof. repeat split; vm_compute; reflexivity. Qed.

(** ** The lifecycle of an instance *)

Lemma settle_PUser P A f d rt : settle P A (S f) (PUser d) rt = (Return (settles P d), rt).
Proof. reflexivity. Qed.


Lemma settle_PThen P A f p k :
  settle P A (S f) (PThen p k)
  = (s <- settle P A f p ;;
     match s with
     | Fulfils t v =>
         fun rt =>
           match resume P A (invoke P A f) k v rt with
           | (Return x, rt') =>
               match thenable x with
               | Some q => (s' <- settle P A f q ;; ret (notBefore t s')) rt'
               | None => (Return (Fulfils t x), rt')
               end
           | (Throw e, rt') => (Return (Rejects t e), rt')
           | (Diverge, rt') => (Diverge, rt')
           end
     | _ => ret s
     end).
Proof. reflexivity. Qed.












(** C2, as claimed, fails: [Service] is a singleton whose init method
    returns a deferred that is rejected.  [create(Service)] answers a deferred
    that is rejected too, and has by then stored the builder returning the
    instance: the next [create(Service)] hands that instance out. *)
Lemma rejected_init_pins_singleton :
  ∃ instance sys',
    createOn Examples.failingInit 5 0 Examples.Service Examples.serviceSystem
      = (Return (VThenable (PThen (PUser 0) (KDeliver instance))), sys')
    ∧ (settle Examples.failingInit [] 5 (PThen (PUser 0) (KDeliver instance))
         (Runtime ∅ 0 [])).1
      = Return (Rejects 1 (UserError 0))
    ∧ (λ c, BUILD c !! Examples.Service) <$> LISTENERS sys' !! 0
      = Some (Some (BInstance instance))
    ∧ (createOn Examples.failingInit 5 0 Examples.Service sys').1 = Return instance.
Proof.
  eexists _, _. split; [vm_compute; reflexivity|].
  split; [reflexivity|]. split; vm_compute; reflexivity.
Qed.

Lemma typeBuilder_compiles_init m bnd fuel type b e b' :
  typeBuilder m bnd (S fuel) type true b = (Return e, b') ->
  abstract (default newData (getData m type)) = false ->
  ∃ body, b' !! type = Some (BProcedure body)
    ∧ p_type body = type
    ∧ p_singleton body = singleton (default newData (getData m type))
    ∧ p_init body = given (init (default newData (getData m type))).
Proof.
  simpl. intros H Ha. rewrite Ha in H.
  andThen_inv H as cp b1 Hcp. andThen_inv H as inj b2 Hinj.
  injection H as <- <-. eexists. split; [apply lookup_insert_eq|]. done.
Qed.

Lemma call_keeps_builders P A instance k args rt r rt' :
  call P A instance k args rt = (r, rt') -> r_build rt' = r_build rt.
Proof.
  assert (∀ rt r rt',
    (record (EvCall instance k args) ;;; answer (calling P instance k args)) rt
    = (r, rt') -> r_build rt' = r_build rt) as Hrecord.
  { intros rt1 r1 rt1'. unfold andThen, record, ret, answer. simpl.
    destruct (calling P instance k args); by intros [= <- <-]. }
  unfold call. destruct instance as [n t| | | |]; try apply Hrecord.
  destruct (supplier P A t k) as [c|]; [|by intros [= <- <-]].
  destruct (bool_decide _); [by intros [= <- <-]|apply Hrecord].
Qed.

Lemma initStage_pins P A body instance rt :
  p_singleton body = true ->
  pinsAfterInit P A (p_type body) (p_init body) instance rt
    (initStage P A body instance rt).
Proof.
  intros Hs. unfold pinsAfterInit, initStage, andThen. rewrite Hs.
  destruct (p_init body) as [k|]; [|done].
  destruct (call P A instance k [] rt) as [[result|err|] rt'] eqn:E; [done| |done].
  split; [done|]. by eapply call_keeps_builders.
Qed.

(** C2, amended: [create] of a type declared singleton runs the procedure
    compiled for it, and that procedure stores the builder returning the
    instance in its last stage, right after the init method, if one is
    declared, has been called and has returned.  The stage is reached within
    [create] when neither the constructor nor a setter returned a deferred,
    and otherwise in the callbacks the procedure hands to [then], [create]
    having returned the deferred with nothing stored.  When init returns a
    deferred, the outcome is the deferred derived from it, with the builder
    already stored, and settling that deferred, whichever way, changes no
    state.  Only a throw of the init call itself leaves the builders as the
    injections left them. *)
Theorem singleton_pinned_once_init_returns (P : program) (A : list (ctor * key))
    (m : store) (bnd : gmap ctor ctor) (fuel0 fuel : nat) (T : ctor)
    (b0 : gmap ctor builder) (e : expr) (rt0 : runtime) :
  let data := default newData (getData m T) in
  typeBuilder m bnd (S fuel0) T true b0 = (Return e, r_build rt0) ->
  abstract data = false ->
  singleton data = true ->
  ∃ body,
    r_build rt0 !! T = Some (BProcedure body)
    ∧ (∀ vs rt1 instance promises rt3,
         evaluateAll (invoke P A fuel) (p_construct body) rt0 = (Return vs, rt1) ->
         constructing P T (VInstance (r_next rt1) T) vs = Replies instance ->
         thenable instance = None ->
         perform P A (invoke P A fuel) instance (p_injections body) []
           (Runtime (r_build rt1) (S (r_next rt1)) (r_log rt1 ++ [EvNew T vs]))
         = (Return promises, rt3) ->
         match promises with
         | [] => pinsAfterInit P A T (given (init data)) instance rt3
                   (create P A fuel T rt0)
         | _ => create P A fuel T rt0
                = (Return (VThenable (PThen (PAll promises) (KInit body instance))),
                   rt3)
         end)
    ∧ (∀ vs rt1 p,
         evaluateAll (invoke P A fuel) (p_construct body) rt0 = (Return vs, rt1) ->
         constructing P T (VInstance (r_next rt1) T) vs = Replies (VThenable p) ->
         create P A fuel T rt0
         = (Return (VThenable (PThen p (KInject body))),
            Runtime (r_build rt1) (S (r_next rt1)) (r_log rt1 ++ [EvNew T vs])))
    ∧ (∀ instance rt promises rt3,
         perform P A (invoke P A fuel) instance (p_injections body) [] rt
         = (Return promises, rt3) ->
         match promises with
         | [] => pinsAfterInit P A T (given (init data)) instance rt3
                   (resume P A (invoke P A fuel) (KInject body) instance rt)
         | _ => resume P A (invoke P A fuel) (KInject body) instance rt
                = (Return (VThenable (PThen (PAll promises) (KInit body instance))),
                   rt3)
         end)
    ∧ (∀ instance v rt,
         pinsAfterInit P A T (given (init data)) instance rt
           (resume P A (invoke P A fuel) (KInit body instance) v rt))
    ∧ (∀ instance d f rt,
         thenable instance = None ->
         settle P A (S (S f)) (PThen (PUser d) (KDeliver instance)) rt
         = (Return match settles P d with
                   | Fulfils t _ => Fulfils t instance
                   | s => s
                   end,
            rt)).
Proof.
  intros data Hcompile Ha Hsingle.
  destruct (typeBuilder_compiles_init _ _ _ _ _ _ _ Hcompile Ha)
    as (body & Hb & Ht & Hs & Hi).
  fold data in Hs, Hi. rewrite Hsingle in Hs.
  assert (∀ instance rt promises rt3,
    perform P A (invoke P A fuel) instance (p_injections body) [] rt
    = (Return promises, rt3) ->
    match promises with
    | [] => pinsAfterInit P A T (given (init data)) instance rt3
              (injectStage P A (invoke P A fuel) body instance rt)
    | _ => injectStage P A (invoke P A fuel) body instance rt
           = (Return (VThenable (PThen (PAll promises) (KInit body instance))), rt3)
    end) as Hinject.
  { intros instance rt promises rt3 Hperform.
    unfold injectStage, andThen. rewrite Hperform.
    destruct promises; [|done]. rewrite <- Ht, <- Hi. by apply initStage_pins. }
  exists body. split; [done|]. split; [|split; [|split; [|split]]].
  - intros vs rt1 instance promises rt3 Hargs Hnew Hinst Hperform.
    rewrite (create_compiled _ _ _ _ _ _ Hb).
    unfold runProcedure, andThen. rewrite Hargs.
    unfold new, andThen, record, ret, answer. simpl. rewrite Ht, Hnew.
    unfold ret. rewrite Hinst. by apply Hinject.
  - intros vs rt1 p Hargs Hnew.
    rewrite (create_compiled _ _ _ _ _ _ Hb).
    unfold runProcedure, andThen. rewrite Hargs.
    unfold new, andThen, record, ret, answer. simpl. by rewrite Ht, Hnew.
  - intros instance rt promises rt3. apply Hinject.
  - intros instance v rt. cbn [resume]. rewrite <- Ht, <- Hi. by apply initStage_pins.
  - intros instance d f rt Hinst. rewrite settle_PThen. unfold andThen.
    rewrite settle_PUser. destruct (settles P d); [|done|done].
    cbn [resume]. unfold ret. by rewrite Hinst.
Qed.

Lemma singleton_pinned_once_init_returns_witness :
  let m := MODULE Examples.serviceSystem in
  let instance := VInstance 0 Examples.Service in
  let rt0 := Runtime (typeBuilder m ∅ 3 Examples.Service true ∅).2 0 [] in
  let rt2 := Runtime (r_build rt0) 1 [EvNew Examples.Service []] in
  let rt4 := Runtime (r_build rt0) 1
               [EvNew Examples.Service []; EvCall instance Examples.start []] in
  typeBuilder m ∅ 3 Examples.Service true ∅
    = (Return (EBuild Examples.Service), r_build rt0)
  ∧ abstract (default newData (getData m Examples.Service)) = false
  ∧ singleton (default newData (getData m Examples.Service)) = true
  ∧ evaluateAll (invoke Examples.failingInit [] 5) [] rt0 = (Return [], rt0)
  ∧ constructing Examples.failingInit Examples.Service instance [] = Replies instance
  ∧ thenable instance = None
  ∧ perform Examples.failingInit [] (invoke Examples.failingInit [] 5) instance [] [] rt2
    = (Return [], rt2)
  ∧ create Examples.failingInit [] 5 Examples.Service rt0
    = (Return (VThenable (PThen (PUser 0) (KDeliver instance))),
       pinned Examples.Service instance rt4).
Proof.
  intros m instance rt0 rt2 rt4.
  assert (typeBuilder m ∅ 3 Examples.Service true ∅
          = (Return (EBuild Examples.Service), r_build rt0)) as H1
    by (vm_compute; reflexivity).
  assert (abstract (default newData (getData m Examples.Service)) = false) as H2
    by reflexivity.
  assert (singleton (default newData (getData m Examples.Service)) = true) as H3
    by reflexivity.
  repeat (split; [first [assumption | reflexivity]|]).
  destruct (singleton_pinned_once_init_returns Examples.failingInit [] m ∅ 2 5
              Examples.Service ∅ _ rt0 H1 H2 H3) as (body & Hb & Hcreate & _).
  assert (body = Procedure Examples.Service [] [] (Some Examples.start) true) as ->.
  { vm_compute in Hb. by injection Hb. }
  exact (Hcreate [] rt0 instance [] rt2 eq_refl eq_refl eq_refl eq_refl).
Defined.

(** An init method that throws: [create(Service)] throws, the procedure of
    [Service] stays in place, and the next [create(Service)] constructs
    again. *)
Example create_singleton_init_throws :
  let first := createOn Examples.throwingInit 5 0 Examples.Service
                 Examples.serviceSystem in
  first.1 = Throw (UserError 0)
  ∧ (λ c, BUILD c !! Examples.Service) <$> LISTENERS first.2 !! 0
    = (λ c, BUILD c !! Examples.Service) <$> LISTENERS Examples.serviceSystem !! 0
  ∧ LOG (createOn Examples.throwingInit 5 0 Examples.Service first.2).2
    = [EvNew Examples.Service [];
       EvCall (VInstance 0 Examples.Service) Examples.start [];
       EvNew Examples.Service [];
       EvCall (VInstance 1 Examples.Service) Examples.start []].
Proof. repeat split; vm_compute; reflexivity. Qed.



(** The lifecycle tests of the repository, from the declarations on: with
    all three deferreds fulfilled the calls are made in the order
    constructor, setter, init; with the deferred of the setter rejected the
    result is rejected with its error and init is not called. *)
Example create_in_order :
  let P := Examples.deferring (Fulfils 1 (VInstance 0 Examples.Worker))
             (Fulfils 2 (VOther 0)) (Fulfils 3 (VOther 0)) in
  let sys := (newContainer 5
                (declareInit P 5 Examples.Worker (Some Examples.start)
                   (declareInject P 5 Examples.Worker (Some Examples.setA)
                      [TypeRef Examples.A] emptySystem).2).2).2 in
  ∃ b,
    BUILD <$> LISTENERS sys !! 0 = Some b
    ∧ create P [] 5 Examples.Worker (Runtime b 0 [])
      = (Return (VThenable (PThen (PUser 0) (KInject Examples.workerBody))),
         Runtime b 1 [EvNew Examples.Worker []])
    ∧ settle P [] 6 (PThen (PUser 0) (KInject Examples.workerBody))
        (Runtime b 1 [EvNew Examples.Worker []])
      = (Return (Fulfils 3 (VInstance 0 Examples.Worker)),
         Runtime b 2
           [EvNew Examples.Worker []; EvNew Examples.A [];
            EvCall (VInstance 0 Examples.Worker) Examples.setA [VInstance 1 Examples.A];
            EvCall (VInstance 0 Examples.Worker) Examples.start []]).
Proof.
  eexists. split; [vm_compute; reflexivity|].
  split; vm_compute; reflexivity.
Qed.

Example create_rejected_by_setter :
  let P := Examples.deferring (Fulfils 1 (VInstance 0 Examples.Worker))
             (Rejects 2 (UserError 7)) (Fulfils 3 (VOther 0)) in
  settle P [] 6 (PThen (PUser 0) (KInject Examples.workerBody))
    (Runtime Examples.workerBuilders 1 [EvNew Examples.Worker []])
  = (Return (Rejects 2 (UserError 7)),
     Runtime Examples.workerBuilders 2
       [EvNew Examples.Worker []; EvNew Examples.A [];
        EvCall (VInstance 0 Examples.Worker) Examples.setA [VInstance 1 Examples.A]]).
Proof. vm_compute; reflexivity. Qed.

(** With the deferred of the setter still pending the result stays pending
    and init is not called. *)
Example create_pending_on_setter :
  let P := Examples.deferring (Fulfils 1 (VInstance 0 Examples.Worker))
             Never (Fulfils 3 (VOther 0)) in
  settle P [] 6 (PThen (PUser 0) (KInject Examples.workerBody))
    (Runtime Examples.workerBuilders 1 [EvNew Examples.Worker []])
  = (Return Never,
     Runtime Examples.workerBuilders 2
       [EvNew Examples.Worker []; EvNew Examples.A [];
        EvCall (VInstance 0 Examples.Worker) Examples.setA [VInstance 1 Examples.A]]).
Proof. vm_compute; reflexivity. Qed.

(** The singleton test of the repository: [B] is a singleton injected into
    [A]; [create(A)], [create(B)] and [create(B)] construct one [B]. *)
Example create_singleton_once :
  let sys := (newContainer 5
                (declareInject Examples.plain 5 Examples.A (Some (KString "a"))
                   [TypeRef Examples.B]
                   (declareSingleton 5 Examples.B emptySystem).2).2).2 in
  let first := createOn Examples.plain 5 0 Examples.A sys in
  let second := createOn Examples.plain 5 0 Examples.B first.2 in
  let third := createOn Examples.plain 5 0 Examples.B second.2 in
  second.1 = Return (VInstance 1 Examples.B)
  ∧ third.1 = Return (VInstance 1 Examples.B)
  ∧ LOG third.2
    = [EvNew Examples.A []; EvNew Examples.B [];
       EvAssign (VInstance 0 Examples.A) (KString "a") (VInstance 1 Examples.B)].
Proof. repeat split; vm_compute; reflexivity. Qed.
